(** * Procedural scene generator: hashing, seeded generator, blueprint, frame

    A shallow embedding of the deterministic core of [src/app/page.tsx]
    ([hashString], [createRng], [buildScene], [drawScene]) and the
    properties its specification states about it. *)

From Stdlib Require Import ZArith QArith Qround Qpower Qabs Qreduction.
From Stdlib Require Import Lia Lqa List String Ascii Bool.
From stdpp Require Import base list.

Local Open Scope Z_scope.

(** ** JavaScript numbers

    A JavaScript [number] is an IEEE 754 binary64 value.  Every finite
    binary64 value is a rational, so finite numbers are modelled as [Q] and
    each arithmetic operator computes the exact rational result and rounds
    it to the nearest binary64 value, ties to even, as IEEE 754 defines the
    operators.  Subnormals are covered (the exponent of the last place
    never goes below -1074); overflow to [Infinity] and [NaN] are outside
    the model. *)

Module Double.

Definition num := Q.
Bind Scope Q_scope with num.

Definition pow2 (k : Z) : Q := Qpower 2 k.

(** [ex2 x] is the binade of a positive [x]: [2^(ex2 x) <= x < 2^(ex2 x + 1)]. *)
Definition ex2 (x : Q) : Z :=
  let e0 := Z.log2 (Qnum x) - Z.log2 (Zpos (Qden x)) in
  if Qle_bool (pow2 e0) x then e0 else e0 - 1.

(** Nearest integer, ties to the even one. *)
Definition rne (m : Q) : Z :=
  let f := Qfloor m in
  match (m - inject_Z f ?= 1 # 2)%Q with
  | Lt => f
  | Gt => f + 1
  | Eq => if Z.even f then f else f + 1
  end.

(** Exponent of the unit in the last place of the binade of [x]. *)
Definition ulp_exp (x : Q) : Z := Z.max (ex2 x - 52) (-1074).

Definition rnd_pos (x : Q) : Q :=
  let k := ulp_exp x in
  Qred (inject_Z (rne (x / pow2 k)) * pow2 k).

(** Rounding to binary64. *)
Definition rnd (x : Q) : num :=
  match (x ?= 0)%Q with
  | Eq => 0%Q
  | Gt => rnd_pos x
  | Lt => Qred (- rnd_pos (- x))
  end.

(** The arithmetic operators [+ - * /] on numbers. *)
Definition add (x y : num) : num := rnd (x + y).
Definition sub (x y : num) : num := rnd (x - y).
Definition mul (x y : num) : num := rnd (x * y).
Definition div (x y : num) : num := rnd (x / y).

(** A decimal literal of the source denotes the nearest binary64 value. *)
Definition lit (q : Q) : num := rnd q.

(** [Math.floor], on a finite number. *)
Definition floor (x : num) : Z := Qfloor x.

(** [x % y] on finite numbers with [y] not zero: the remainder has the sign
    of the dividend and is computed exactly (it is always representable). *)
Definition trunc (x : Q) : Z := if Qle_bool 0 x then Qfloor x else Qceiling x.
Definition rem (x y : num) : num := Qred (x - inject_Z (trunc (x / y)) * y).

Definition max (x y : num) : num := if Qle_bool x y then y else x.
Definition min (x y : num) : num := if Qle_bool x y then x else y.

(** Integers, which are binary64 values up to 2^53 in magnitude. *)
Definition ofZ (z : Z) : num := inject_Z z.
Definition ofNat (n : nat) : num := inject_Z (Z.of_nat n).

(** [Math.PI]: the binary64 value 0x1.921fb54442d18p+1. *)
Definition PI : num := Qred (884279719003555 # 281474976710656).

End Double.

(** ** 32-bit integer operators *)

(** [ToInt32] of an integer-valued number: reduce modulo 2^32 into
    [-2^31, 2^31). *)
Definition toInt32 (z : Z) : Z :=
  let u := z mod 2 ^ 32 in
  if u <? 2 ^ 31 then u else u - 2 ^ 32.

(** [a << n] and [a >> n] on 32-bit integers. *)
Definition shl32 (a n : Z) : Z := toInt32 (Z.shiftl (toInt32 a) (n mod 32)).
Definition sar32 (a n : Z) : Z := Z.shiftr (toInt32 a) (n mod 32).

(** [a | 0]. *)
Definition or0 (a : Z) : Z := toInt32 (Z.lor (toInt32 a) 0).

(** ** Strings

    A JavaScript string is a sequence of UTF-16 code units. *)

Definition jsstring := list Z.

(** The code units of a literal made of ASCII characters. *)
Definition str (s : string) : jsstring :=
  map (fun a => Z.of_N (N_of_ascii a)) (list_ascii_of_string s).

(** [WhiteSpace] and [LineTerminator] code points, which [trim] strips. *)
Definition isWhiteSpace (c : Z) : bool :=
  (9 <=? c) && (c <=? 13) || (c =? 32) || (c =? 160) || (c =? 5760)
  || (8192 <=? c) && (c <=? 8202) || (c =? 8232) || (c =? 8233)
  || (c =? 8239) || (c =? 8287) || (c =? 12288) || (c =? 65279).

Fixpoint trimStart (s : jsstring) : jsstring :=
  match s with
  | c :: s' => if isWhiteSpace c then trimStart s' else s
  | [] => []
  end.

Definition trimEnd (s : jsstring) : jsstring := rev (trimStart (rev s)).

(** [String.prototype.trim]. *)
Definition trim (s : jsstring) : jsstring := trimEnd (trimStart s).

(** [String.prototype.toLowerCase] restricted to what it does on the ASCII
    letters; used to instantiate the case mapping on concrete prompts. *)
Definition asciiToLowerCase (s : jsstring) : jsstring :=
  map (fun c => if (65 <=? c) && (c <=? 90) then c + 32 else c) s.

(** ** [hashString] *)

Definition hashStep (hash c : Z) : Z :=
  let hash := shl32 hash 5 - hash + c in
  or0 hash.

Definition hashString (input : jsstring) : Z :=
  Z.abs (fold_left hashStep input 0).

(** The accumulation as the specification words it: [hash*31 + charCode]
    with two's-complement 32-bit wrap-around at each step. *)
Definition wrap32 (z : Z) : Z := (z + 2 ^ 31) mod 2 ^ 32 - 2 ^ 31.

Definition hashAccSpec (input : jsstring) : Z :=
  fold_left (fun hash c => wrap32 (hash * 31 + c)) input 0.

(** ** [createRng]

    [createRng(seed)] returns a closure over a fresh variable [state].  The
    store holds one cell per closure created so far; the closure itself is
    the index of its cell. *)

Local Open Scope Q_scope.

Abbreviation Store := (list Double.num).
Abbreviation Rng := nat.

(** The body of the closure, as a transition of the captured [state]:
    the returned number and the new [state]. *)
Definition lcgNext (state : Double.num) : Double.num * Double.num :=
  let state :=
    Double.rem (Double.add (Double.mul state 1664525) 1013904223) 4294967296 in
  (Double.div state 4294967296, state).

(** [seed || 1]. *)
Definition orOne (seed : Double.num) : Double.num :=
  if Qeq_bool seed 0 then 1 else seed.

Definition createRng (seed : Double.num) (σ : Store) : Rng * Store :=
  let state := orOne seed in
  (length σ, σ ++ [state]).

(** The state of a closure after [n] calls, and the value its [n]-th call
    returns ([n] counted from 1). *)
Definition stateAfter (state : Double.num) (n : nat) : Double.num :=
  Nat.iter n (fun s => snd (lcgNext s)) state.

Definition draw (state : Double.num) (n : nat) : Double.num :=
  fst (lcgNext (stateAfter state (n - 1))).

(** The update as the specification words it:
    [state = (state*mult + inc) mod 2^32], on integers. *)
Definition lcgSpec (state : Z) : Z := ((state * 1664525 + 1013904223) mod 2 ^ 32)%Z.

(** The values a call can return when the state is an integer of
    [0, 2^32): the multiples of 2^-32 in [0, 1). *)
Definition unitDraw (r : Double.num) : Prop := 0 <= r /\ r <= 4294967295 # 4294967296.

(** Computations over the captured variable of one closure. *)
Definition Draw (A : Type) : Type := Double.num -> A * Double.num.

Definition ret {A} (a : A) : Draw A := fun s => (a, s).

Definition bind {A B} (m : Draw A) (k : A -> Draw B) : Draw B :=
  fun s => let (a, s') := m s in k a s'.

Notation "x <- m ;; k" := (bind m (fun x => k))
  (at level 100, m at next level, right associativity).

Fixpoint mapM {A B} (f : A -> Draw B) (l : list A) : Draw (list B) :=
  match l with
  | [] => ret []
  | a :: l' => b <- f a ;; bs <- mapM f l' ;; ret (b :: bs)
  end.

(** Running a computation against the cell of closure [rng].  A closure
    always has a cell ([createRng] allocates it), so the second branch is
    never taken by the code below. *)
Definition withRng {A} (rng : Rng) (m : Draw A) (σ : Store) : A * Store :=
  match σ !! rng with
  | Some s => let (a, s') := m s in (a, <[rng := s']> σ)
  | None => (fst (m 0), σ)
  end.

(** One call [rng()]. *)
Definition callRng (rng : Rng) : Store -> Double.num * Store :=
  withRng rng lcgNext.

(** The store after [n] calls of the closure [g]. *)
Definition callsOn (g : Rng) (n : nat) (σ : Store) : Store :=
  Nat.iter n (fun σ => snd (callRng g σ)) σ.

(** A client holding two generators and calling them in any order:
    [true] in the schedule is a call of [g1], [false] a call of [g2].  The
    result lists what each generator returned, in order. *)
Fixpoint interleave (g1 g2 : Rng) (schedule : list bool) (σ : Store)
    : list Double.num * list Double.num :=
  match schedule with
  | [] => ([], [])
  | b :: schedule' =>
      let (r, σ') := callRng (if b then g1 else g2) σ in
      let (out1, out2) := interleave g1 g2 schedule' σ' in
      if b then (r :: out1, out2) else (out1, r :: out2)
  end.

(** ** The blueprint *)

(** The colour strings are template literals; a colour records the
    template and the numbers substituted into it:
    [hsl(H, S%, L%)] and [hsla(H, S%, L%, A)]. *)
Inductive Color : Type :=
| Hsl (h s l : Double.num)
| Hsla (h s l a : Double.num).

Record LayerSpec : Type := {
  color : Color;
  radius : Double.num;
  rotation : Double.num;
  speed : Double.num;
  variance : Double.num;
}.

Record SparkSpec : Type := {
  angle : Double.num;
  distance : Double.num;
  size : Double.num;
  drift : Double.num;
  hueShift : Double.num;
}.

Record SceneBlueprint : Type := {
  layers : list LayerSpec;
  sparks : list SparkSpec;
  background : Color * Color;
  pulse : Double.num;
  distort : Double.num;
}.

Definition clamp (value min max : Double.num) : Double.num :=
  Double.min (Double.max value min) max.

(** ** [buildScene] *)

Module Scene.
Import Double.

(** [(hue + rng() * 0.25 - 0.125 + index * 0.03) % 1]. *)
Definition layerHue (hue r : num) (index : nat) : num :=
  rem (add (sub (add hue (mul r (lit 0.25))) (lit 0.125))
           (mul (ofNat index) (lit 0.03)))
      1.

(** The object a layer callback returns, from the values of its eight
    calls of [rng] in the order the callback makes them. *)
Definition layerOf (hue : num) (index : nat) (r1 r2 r3 r4 r5 r6 r7 r8 : num)
    : LayerSpec :=
  let layerHue := layerHue hue r1 index in
  {| color :=
       Hsla (ofZ (floor (mul layerHue 360)))
            (ofZ (60 + floor (mul r2 30)))
            (ofZ (45 + floor (mul r3 20)))
            (add (lit 0.35) (mul r4 (lit 0.35)));
     radius := add (lit 0.25) (mul r5 (lit 0.65));
     rotation := mul (mul r6 PI) 2;
     speed := add (lit 0.2) (mul r7 (lit 0.9));
     variance := add (lit 0.2) (mul r8 (lit 0.6)) |}.

(** The callback of the [layers] map. *)
Definition buildLayer (hue : num) (index : nat) : Draw LayerSpec :=
  r1 <- lcgNext ;;
  r2 <- lcgNext ;;
  r3 <- lcgNext ;;
  r4 <- lcgNext ;;
  r5 <- lcgNext ;;
  r6 <- lcgNext ;;
  r7 <- lcgNext ;;
  r8 <- lcgNext ;;
  ret (layerOf hue index r1 r2 r3 r4 r5 r6 r7 r8).

(** The object a spark callback returns, from its five calls of [rng]. *)
Definition sparkOf (r1 r2 r3 r4 r5 : num) : SparkSpec :=
  {| angle := mul (mul r1 PI) 2;
     distance := add (lit 0.1) (mul r2 (lit 0.9));
     size := add 1 (mul r3 2);
     drift := add (lit 0.5) (mul r4 (lit 1.5));
     hueShift := mul (sub r5 (lit 0.5)) 40 |}.

(** The callback of the [sparks] map. *)
Definition buildSpark : Draw SparkSpec :=
  r1 <- lcgNext ;;
  r2 <- lcgNext ;;
  r3 <- lcgNext ;;
  r4 <- lcgNext ;;
  r5 <- lcgNext ;;
  ret (sparkOf r1 r2 r3 r4 r5).

Definition hueOf (baseHash : Z) : num :=
  div (ofZ (Z.rem baseHash 360)) 360.

Definition accentOf (baseHash : Z) : num :=
  clamp (div (ofZ (Z.rem (sar32 baseHash 8) 360)) 360) 0 1.

Definition backgroundOf (baseHash : Z) : Color * Color :=
  let hue := hueOf baseHash in
  let accent := accentOf baseHash in
  (Hsl (ofZ (floor (mul hue 360))) 68 12,
   Hsl (ofZ (floor (mul (rem (add hue (div accent 3)) 1) 360))) 80 22).

Definition layerCountOf (r : num) : Z := (5 + floor (mul r 5))%Z.
Definition sparkCountOf (r : num) : Z := (120 + floor (mul r 180))%Z.

Definition pulseOf (r : num) : num := add (lit 0.4) (mul r (lit 0.4)).
Definition distortOf (r : num) : num := add (lit 0.5) (mul r (lit 0.9)).

(** Everything [buildScene] does with [rng] once [baseHash] is known. *)
Definition fromHash (baseHash : Z) : Draw SceneBlueprint :=
  let hue := hueOf baseHash in
  let background := backgroundOf baseHash in
  r <- lcgNext ;;
  let layerCount := layerCountOf r in
  layers <- mapM (buildLayer hue) (seq 0 (Z.to_nat layerCount)) ;;
  r <- lcgNext ;;
  let sparkCount := sparkCountOf r in
  sparks <- mapM (fun _ => buildSpark) (seq 0 (Z.to_nat sparkCount)) ;;
  r <- lcgNext ;;
  let pulse := pulseOf r in
  r <- lcgNext ;;
  let distort := distortOf r in
  ret {| layers := layers;
         sparks := sparks;
         background := background;
         pulse := pulse;
         distort := distort |}.

(** The layer at position [i] and the spark at position [j] of a blueprint,
    as functions of the sequence [d] of values the generator returns, when
    the first of them is built after [base] calls. *)
Definition layerAt (hue : num) (d : nat -> num) (base i : nat) : LayerSpec :=
  let k := (8 * i + base)%nat in
  layerOf hue i (d (1 + k)%nat) (d (2 + k)%nat) (d (3 + k)%nat) (d (4 + k)%nat)
          (d (5 + k)%nat) (d (6 + k)%nat) (d (7 + k)%nat) (d (8 + k)%nat).

Definition sparkAt (d : nat -> num) (base j : nat) : SparkSpec :=
  let k := (5 * j + base)%nat in
  sparkOf (d (1 + k)%nat) (d (2 + k)%nat) (d (3 + k)%nat) (d (4 + k)%nat)
          (d (5 + k)%nat).

End Scene.

Section BuildScene.

(** [String.prototype.toLowerCase] is the host's Unicode case mapping; the
    builder is defined for any such function. *)
Variable toLowerCase : jsstring -> jsstring.

(** [prompt.trim().toLowerCase() || "sora"]: the empty string is falsy. *)
Definition seedText (prompt : jsstring) : jsstring :=
  match toLowerCase (trim prompt) with
  | [] => str "sora"
  | key => key
  end.

Definition buildScene (prompt : jsstring) (σ : Store) : SceneBlueprint * Store :=
  let baseHash := hashString (seedText prompt) in
  let (rng, σ) := createRng (Double.ofZ baseHash) σ in
  withRng rng (Scene.fromHash baseHash) σ.

End BuildScene.

(** The blueprint of the default token ["sora"]. *)
Definition defaultBlueprint : SceneBlueprint :=
  fst (Scene.fromHash (hashString (str "sora"))
                      (orOne (Double.ofZ (hashString (str "sora"))))).

(** ** The ranges of the blueprint fields

    The bounds are exact rationals; [2 * Double.PI] is twice the binary64
    value [Math.PI], which lies below the real number 2π. *)

Definition layerInRange (l : LayerSpec) : Prop :=
  (0.25 <= radius l /\ radius l < 0.9)
  /\ (0 <= rotation l /\ rotation l < 2 * Double.PI)
  /\ (0.2 <= speed l /\ speed l < 1.1)
  /\ (0.2 <= variance l /\ variance l < 0.8).

Definition sparkInRange (s : SparkSpec) : Prop :=
  (0 <= angle s /\ angle s < 2 * Double.PI)
  /\ (0.1 <= distance s /\ distance s < 1)
  /\ (1 <= size s /\ size s < 3)
  /\ (0.5 <= drift s /\ drift s < 2)
  /\ (-20 <= hueShift s /\ hueShift s < 20).

Local Close Scope Q_scope.

(** ** The drawing context

    A [CanvasRenderingContext2D] is modelled by the part of its state that
    [drawScene] reads or writes, together with the list of painting
    operations performed on the surface so far; each operation records the
    fill style, filter and composite operation in force when it ran. *)

Definition ColorStop : Type := Double.num * Color.

Inductive FillStyle : Type :=
| SolidColor (c : Color)
| LinearGradient (x0 y0 x1 y1 : Double.num) (stops : list ColorStop)
| RadialGradient (x0 y0 r0 x1 y1 r1 : Double.num) (stops : list ColorStop).

(** [gradient.addColorStop(offset, color)]. *)
Definition addColorStop (g : FillStyle) (offset : Double.num) (c : Color) : FillStyle :=
  match g with
  | SolidColor c0 => SolidColor c0
  | LinearGradient x0 y0 x1 y1 stops =>
      LinearGradient x0 y0 x1 y1 (stops ++ [(offset, c)])
  | RadialGradient x0 y0 r0 x1 y1 r1 stops =>
      RadialGradient x0 y0 r0 x1 y1 r1 (stops ++ [(offset, c)])
  end.

(** The filter strings ["none"] and [blur(Npx)]. *)
Inductive Filter : Type :=
| FilterNone
| Blur (px : Double.num).

Inductive PathCmd : Type :=
| MoveTo (x y : Double.num)
| LineTo (x y : Double.num)
| Arc (x y r startAngle endAngle : Double.num)
| ClosePath.

Inductive Painted : Type :=
| ClearRect (x y w h : Double.num)
| FillRect (x y w h : Double.num) (style : FillStyle) (f : Filter) (op : string)
| Fill (path : list PathCmd) (style : FillStyle) (f : Filter) (op : string).

Record Ctx : Type := {
  canvasWidth : Double.num;
  canvasHeight : Double.num;
  fillStyle : FillStyle;
  filter : Filter;
  globalCompositeOperation : string;
  path : list PathCmd;
  surface : list Painted;
}.

Module Canvas.

Definition setFillStyle (v : FillStyle) (c : Ctx) : Ctx :=
  {| canvasWidth := canvasWidth c; canvasHeight := canvasHeight c;
     fillStyle := v; filter := filter c;
     globalCompositeOperation := globalCompositeOperation c;
     path := path c; surface := surface c |}.

Definition setFilter (v : Filter) (c : Ctx) : Ctx :=
  {| canvasWidth := canvasWidth c; canvasHeight := canvasHeight c;
     fillStyle := fillStyle c; filter := v;
     globalCompositeOperation := globalCompositeOperation c;
     path := path c; surface := surface c |}.

Definition setGlobalCompositeOperation (v : string) (c : Ctx) : Ctx :=
  {| canvasWidth := canvasWidth c; canvasHeight := canvasHeight c;
     fillStyle := fillStyle c; filter := filter c;
     globalCompositeOperation := v;
     path := path c; surface := surface c |}.

Definition setPath (v : list PathCmd) (c : Ctx) : Ctx :=
  {| canvasWidth := canvasWidth c; canvasHeight := canvasHeight c;
     fillStyle := fillStyle c; filter := filter c;
     globalCompositeOperation := globalCompositeOperation c;
     path := v; surface := surface c |}.

Definition paint (p : Painted) (c : Ctx) : Ctx :=
  {| canvasWidth := canvasWidth c; canvasHeight := canvasHeight c;
     fillStyle := fillStyle c; filter := filter c;
     globalCompositeOperation := globalCompositeOperation c;
     path := path c; surface := surface c ++ [p] |}.

Definition clearRect (x y w h : Double.num) (c : Ctx) : Ctx :=
  paint (ClearRect x y w h) c.

Definition fillRect (x y w h : Double.num) (c : Ctx) : Ctx :=
  paint (FillRect x y w h (fillStyle c) (filter c) (globalCompositeOperation c)) c.

Definition createLinearGradient (x0 y0 x1 y1 : Double.num) : FillStyle :=
  LinearGradient x0 y0 x1 y1 [].

Definition createRadialGradient (x0 y0 r0 x1 y1 r1 : Double.num) : FillStyle :=
  RadialGradient x0 y0 r0 x1 y1 r1 [].

Definition beginPath (c : Ctx) : Ctx := setPath [] c.
Definition addToPath (cmd : PathCmd) (c : Ctx) : Ctx := setPath (path c ++ [cmd]) c.
Definition moveTo (x y : Double.num) : Ctx -> Ctx := addToPath (MoveTo x y).
Definition lineTo (x y : Double.num) : Ctx -> Ctx := addToPath (LineTo x y).
Definition closePath : Ctx -> Ctx := addToPath ClosePath.
Definition arc (x y r a0 a1 : Double.num) : Ctx -> Ctx := addToPath (Arc x y r a0 a1).

Definition fill (c : Ctx) : Ctx :=
  paint (Fill (path c) (fillStyle c) (filter c) (globalCompositeOperation c)) c.

(** [array.forEach((element, index) => ...)] acting on the context. *)
Fixpoint forEachFrom {A} (f : A -> nat -> Ctx -> Ctx) (l : list A) (index : nat)
    (c : Ctx) : Ctx :=
  match l with
  | [] => c
  | a :: l' => forEachFrom f l' (S index) (f a index c)
  end.

Definition forEach {A} (f : A -> nat -> Ctx -> Ctx) (l : list A) : Ctx -> Ctx :=
  forEachFrom f l 0.

End Canvas.

(** ** [drawScene] *)

Section DrawScene.
Import Double Canvas.
Local Open Scope Q_scope.
Local Open Scope string_scope.

(** [Math.sin] and [Math.cos] return implementation-approximated values;
    the renderer is defined for any such pair of functions. *)
Variables Math_sin Math_cos : num -> num.

(** One turn of the loop [for (let i = 0; i <= points; i += 1)]: the
    vertex is computed and added to the path by [moveTo] when [i] is 0 and
    by [lineTo] otherwise. *)
Definition layerVertexCmd (cx cy radius layerTime : num) (layer : LayerSpec)
    (blueprintDistort : num) (index i : nat) : PathCmd :=
  let points := 360 in
  let angle := mul (mul (div (ofNat i) points) PI) 2 in
  let distortion :=
    mul (Math_sin (add (mul angle (add 2 (ofNat index))) layerTime)) (variance layer) in
  let x :=
    add cx (mul (mul (Math_cos (add angle (mul layerTime (lit 0.25)))) radius)
                (add 1 (mul (mul distortion blueprintDistort) (lit 0.4)))) in
  let y :=
    add cy (mul (mul (Math_sin (add angle (mul layerTime (lit 0.25)))) radius)
                (add 1 (mul (mul distortion blueprintDistort) (lit 0.4)))) in
  if Nat.eqb i 0 then MoveTo x y else LineTo x y.

Definition layerVertex (cx cy radius layerTime : num) (layer : LayerSpec)
    (blueprintDistort : num) (index : nat) (c : Ctx) (i : nat) : Ctx :=
  addToPath (layerVertexCmd cx cy radius layerTime layer blueprintDistort index i) c.

(** The callback of [blueprint.layers.forEach]. *)
Definition drawLayer (time cx cy maxDim pulse blueprintDistort : num)
    (layer : LayerSpec) (index : nat) (c : Ctx) : Ctx :=
  let layerTime := add (mul time (speed layer)) (rotation layer) in
  let radius := div (mul (mul maxDim (radius layer)) pulse) 2 in
  let c := beginPath c in
  let c :=
    fold_left (layerVertex cx cy radius layerTime layer blueprintDistort index)
              (seq 0 361) c in
  let c := closePath c in
  let c := setFillStyle (SolidColor (color layer)) c in
  let c := setFilter (Blur (add 3 (mul (ofNat index) (lit 1.5)))) c in
  fill c.

(** The gradient built for one spark: centre, radius and colour stops. *)
Definition sparkCentre (time cx cy maxDim : num) (spark : SparkSpec) (idx : nat)
    : num * num :=
  let sparkTime := add (mul time (drift spark)) (mul (ofNat idx) (lit 0.01)) in
  let angle := add (angle spark) (mul (Math_sin (mul sparkTime (lit 0.5))) (lit 0.5)) in
  let distance := add (distance spark) (mul (Math_sin sparkTime) (lit 0.02)) in
  let x := add cx (mul (mul (mul (Math_cos angle) distance) maxDim) (lit 0.45)) in
  let y := add cy (mul (mul (mul (Math_sin angle) distance) maxDim) (lit 0.45)) in
  (x, y).

Definition sparkGradient (time x y : num) (spark : SparkSpec) : FillStyle :=
  let gradientSpark := createRadialGradient x y 0 x y (mul (size spark) 12) in
  let gradientSpark :=
    addColorStop gradientSpark 0
      (Hsla (add (hueShift spark) (mul time 40)) 80 70 (lit 0.85)) in
  addColorStop gradientSpark 1 (Hsla 0 0 100 0).

(** The callback of [blueprint.sparks.forEach]. *)
Definition drawSpark (time cx cy maxDim : num) (spark : SparkSpec) (idx : nat)
    (c : Ctx) : Ctx :=
  let (x, y) := sparkCentre time cx cy maxDim spark idx in
  let gradientSpark := sparkGradient time x y spark in
  let c := setFillStyle gradientSpark c in
  let c := beginPath c in
  let c := arc x y (mul (size spark) 12) 0 (mul PI 2) c in
  fill c.

Definition drawScene (ctx : Ctx) (time : num) (blueprint : SceneBlueprint) : Ctx :=
  let width := canvasWidth ctx in
  let height := canvasHeight ctx in
  let ctx := clearRect 0 0 width height ctx in
  let gradient := createLinearGradient 0 0 width height in
  let gradient := addColorStop gradient 0 (fst (background blueprint)) in
  let gradient := addColorStop gradient 1 (snd (background blueprint)) in
  let ctx := setFillStyle gradient ctx in
  let ctx := fillRect 0 0 width height ctx in
  let cx := div width 2 in
  let cy := div height 2 in
  let maxDim := max width height in
  let pulse := add 1 (mul (Math_sin (mul time (pulse blueprint))) (lit 0.05)) in
  let ctx :=
    forEach (drawLayer time cx cy maxDim pulse (distort blueprint))
            (layers blueprint) ctx in
  let ctx := setFilter FilterNone ctx in
  let ctx := setGlobalCompositeOperation "lighter" ctx in
  let ctx := forEach (drawSpark time cx cy maxDim) (sparks blueprint) ctx in
  setGlobalCompositeOperation "source-over" ctx.

(** What each callback paints: the closed outline of a layer, filled with
    the colour of the layer under a blur that grows with the index, and the
    glow of a spark, a disc filled with its radial gradient.  [op] is the
    composite operation in force. *)
Definition layerPath (cx cy radius layerTime : num) (layer : LayerSpec)
    (blueprintDistort : num) (index : nat) : list PathCmd :=
  map (layerVertexCmd cx cy radius layerTime layer blueprintDistort index) (seq 0 361)
  ++ [ClosePath].

Definition layerFill (time cx cy maxDim pulse blueprintDistort : num) (op : string)
    (index : nat) (layer : LayerSpec) : Painted :=
  let layerTime := add (mul time (speed layer)) (rotation layer) in
  let radius := div (mul (mul maxDim (radius layer)) pulse) 2 in
  Fill (layerPath cx cy radius layerTime layer blueprintDistort index)
       (SolidColor (color layer))
       (Blur (add 3 (mul (ofNat index) (lit 1.5)))) op.

Definition sparkFill (time cx cy maxDim : num) (op : string) (idx : nat)
    (spark : SparkSpec) : Painted :=
  let (x, y) := sparkCentre time cx cy maxDim spark idx in
  Fill [Arc x y (mul (size spark) 12) 0 (mul PI 2)]
       (sparkGradient time x y spark) FilterNone op.

End DrawScene.

Local Open Scope Q_scope.
Local Open Scope string_scope.

(** A context as [canvas.getContext("2d")] first returns it: black fill
    style, no filter, normal blending, empty path, nothing painted. *)
Definition freshContext (width height : Double.num) : Ctx :=
  {| canvasWidth := width; canvasHeight := height;
     fillStyle := SolidColor (Hsl 0 0 0); filter := FilterNone;
     globalCompositeOperation := "source-over";
     path := []; surface := [] |}.

(** A small blueprint, one layer and one spark, for running the renderer. *)
Definition sampleBlueprint : SceneBlueprint :=
  {| layers := [ {| color := Hsla 200 70 50 (Double.lit 0.5);
                    radius := Double.lit 0.5; rotation := 0;
                    speed := Double.lit 0.5; variance := Double.lit 0.5 |} ];
     sparks := [ {| angle := 0; distance := Double.lit 0.5; size := 2;
                    drift := 1; hueShift := -20 |} ];
     background := (Hsl 347 68 12, Hsl 31 80 22);
     pulse := Double.lit 0.5;
     distort := 1 |}.

Local Close Scope string_scope.
Local Close Scope Q_scope.

(** ** [preferredMimeType]

    The browser is modelled by what the function asks of it: whether
    [window] and [MediaRecorder] are defined, and the answer of
    [MediaRecorder.isTypeSupported]. *)

Record MediaEnv : Type := {
  hasWindow : bool;
  hasMediaRecorder : bool;
  isTypeSupported : string -> bool;
}.

Definition candidates : list string :=
  ["video/webm;codecs=vp9"; "video/webm;codecs=vp8"; "video/webm"]%string.

(** [null] is [None]. *)
Definition preferredMimeType (env : MediaEnv) : option string :=
  if negb (hasWindow env) || negb (hasMediaRecorder env) then None
  else find (isTypeSupported env) candidates.

(** ** [downloadName] *)

Section DownloadName.

Variable toLowerCase : jsstring -> jsstring.

(** The character class [[a-z0-9]]. *)
Definition isSlugChar (c : Z) : bool :=
  ((97 <=? c) && (c <=? 122) || (48 <=? c) && (c <=? 57))%Z.

(** [.replace(/[^a-z0-9]+/g, "-")]: every maximal run of other characters
    becomes one ["-"] (code unit 45).  [inRun] tells that the run the
    current character would belong to has been replaced already. *)
Fixpoint dashRunsFrom (inRun : bool) (s : jsstring) : jsstring :=
  match s with
  | [] => []
  | c :: s' =>
      if isSlugChar c then c :: dashRunsFrom false s'
      else if inRun then dashRunsFrom true s'
      else 45%Z :: dashRunsFrom true s'
  end.

Definition dashRuns : jsstring -> jsstring := dashRunsFrom false.

(** [.replace(/(^-|-$)/g, "")]: a ["-"] at the start and a ["-"] at the end
    are removed. *)
Definition stripStartDash (s : jsstring) : jsstring :=
  match s with
  | c :: s' => if (c =? 45)%Z then s' else s
  | [] => []
  end.

Definition stripEdgeDashes (s : jsstring) : jsstring :=
  rev (stripStartDash (rev (stripStartDash s))).

(** [.slice(0, 40)]. *)
Definition slugOf (prompt : jsstring) : jsstring :=
  firstn 40 (stripEdgeDashes (dashRuns (toLowerCase prompt))).

(** The value of the [downloadName] memo; [undefined] is [None].  A [null]
    or empty [videoUrl] is falsy. *)
Definition downloadName (prompt : jsstring) (videoUrl : option jsstring)
    : option jsstring :=
  match videoUrl with
  | None | Some [] => None
  | Some (_ :: _) =>
      let slug := slugOf prompt in
      Some (str "sora2-procedural-"
            ++ (match slug with [] => str "sequence" | _ => slug end)
            ++ str ".webm")
  end.

End DownloadName.

(** ** The [step] callback of [renderLoop]

    One animation frame at [timestamp]: the context after the frame is
    drawn, the value passed to [setProgress], and whether the callback asks
    for another frame. *)

Section RenderLoop.

Variables Math_sin Math_cos : Double.num -> Double.num.

Definition renderStep (ctx : Ctx) (blueprint : SceneBlueprint)
    (start lengthMs timestamp : Double.num) : Ctx * Double.num * bool :=
  let elapsed := Double.sub timestamp start in
  (drawScene Math_sin Math_cos ctx (Double.div elapsed 1000%Q) blueprint,
   Double.min 100%Q (Double.mul (Double.div elapsed lengthMs) 100%Q),
   Qle_bool elapsed lengthMs).

End RenderLoop.

(* ===================================================================== *)
(** * Properties *)
(* ===================================================================== *)

(** *** Properties of rounding *)

Section RoundingFacts.
Import Double.
Local Open Scope Q_scope.

Lemma two_neq_0 : ~ 2 == 0.
Proof. discriminate. Qed.

Lemma pow2_pos k : 0 < pow2 k.
Proof. apply Qpower_0_lt. reflexivity. Qed.

Lemma pow2_add a b : pow2 (a + b) == pow2 a * pow2 b.
Proof. apply Qpower_plus, two_neq_0. Qed.

Lemma pow2_succ k : pow2 (k + 1) == 2 * pow2 k.
Proof. rewrite pow2_add. unfold pow2 at 2. simpl. ring. Qed.

Lemma pow2_sub a b : pow2 (a - b) == pow2 a / pow2 b.
Proof. apply Qpower_minus, two_neq_0. Qed.

Lemma pow2_le a b : (a <= b)%Z -> pow2 a <= pow2 b.
Proof. intros. apply Qpower_le_compat_l; [assumption | discriminate]. Qed.

Lemma pow2_lt a b : (a < b)%Z -> pow2 a < pow2 b.
Proof. intros. apply Qpower_lt_compat_l; [assumption | reflexivity]. Qed.

Lemma pow2_lt_inv a b : pow2 a < pow2 b -> (a < b)%Z.
Proof. intros. apply (Qpower_lt_compat_l_inv 2); [assumption | reflexivity]. Qed.

Lemma pow2_Z k : (0 <= k)%Z -> pow2 k == inject_Z (2 ^ k).
Proof. intros. unfold pow2. rewrite Zpower_Qpower by assumption. reflexivity. Qed.

Lemma pow2_Z_inv k : (0 <= k)%Z -> inject_Z (2 ^ k) == pow2 k.
Proof. intros. symmetry. apply pow2_Z. assumption. Qed.

Lemma Qmake_mult_den (x : Q) : x * inject_Z (Zpos (Qden x)) == inject_Z (Qnum x).
Proof.
  destruct x as [n d]. unfold Qeq, Qmult, inject_Z. simpl. lia.
Qed.

Lemma ex2_spec x : 0 < x -> pow2 (ex2 x) <= x /\ x < pow2 (ex2 x + 1).
Proof.
  intros Hx.
  assert (Hn : (0 < Qnum x)%Z).
  { destruct x as [n d]. unfold Qlt in Hx. simpl in *. lia. }
  pose proof (Z.log2_spec _ Hn) as [Hn1 Hn2].
  pose proof (Z.log2_spec (Zpos (Qden x)) (Pos2Z.is_pos _)) as [Hd1 Hd2].
  pose proof (Z.log2_nonneg (Qnum x)) as Hln.
  pose proof (Z.log2_nonneg (Zpos (Qden x))) as Hld.
  pose proof (Qmake_mult_den x) as Hxd.
  set (ln := Z.log2 (Qnum x)) in *.
  set (ld := Z.log2 (Zpos (Qden x))) in *.
  rewrite <- Z.add_1_r in Hn2, Hd2.
  rewrite Zle_Qle, pow2_Z_inv in Hn1 by assumption.
  rewrite Zlt_Qlt, pow2_Z_inv in Hn2 by lia.
  rewrite Zle_Qle, pow2_Z_inv in Hd1 by assumption.
  rewrite Zlt_Qlt, pow2_Z_inv in Hd2 by lia.
  assert (Hlo : pow2 (ln - ld - 1) < x).
  { pose proof (pow2_add (ln - ld - 1) (ld + 1)) as E.
    replace (ln - ld - 1 + (ld + 1))%Z with ln in E by lia.
    pose proof (pow2_pos (ln - ld - 1)). pose proof (pow2_pos (ld + 1)).
    nra. }
  assert (Hhi : x < pow2 (ln - ld + 1)).
  { pose proof (pow2_add (ln - ld + 1) ld) as E.
    replace (ln - ld + 1 + ld)%Z with (ln + 1)%Z in E by lia.
    pose proof (pow2_pos (ln - ld + 1)). pose proof (pow2_pos ld).
    nra. }
  unfold ex2. fold ln ld.
  destruct (Qle_bool (pow2 (ln - ld)) x) eqn:Hb.
  - apply Qle_bool_iff in Hb. split; assumption.
  - assert (Hlt : x < pow2 (ln - ld)).
    { apply Qnot_le_lt. intros Hle. apply Qle_bool_iff in Hle. congruence. }
    replace (ln - ld - 1 + 1)%Z with (ln - ld)%Z by lia.
    split; [apply Qlt_le_weak|]; assumption.
Qed.

Lemma ex2_unique x e : pow2 e <= x -> x < pow2 (e + 1) -> ex2 x = e.
Proof.
  intros H1 H2.
  assert (Hx : 0 < x) by (pose proof (pow2_pos e); lra).
  destruct (ex2_spec x Hx) as [H3 H4].
  assert (e < ex2 x + 1)%Z by (apply pow2_lt_inv; lra).
  assert (ex2 x < e + 1)%Z by (apply pow2_lt_inv; lra).
  lia.
Qed.

Lemma ex2_mono x y : 0 < x -> x <= y -> (ex2 x <= ex2 y)%Z.
Proof.
  intros Hx Hxy.
  destruct (ex2_spec x Hx) as [H1 _].
  destruct (ex2_spec y) as [_ H2]; [lra|].
  assert (ex2 x < ex2 y + 1)%Z by (apply pow2_lt_inv; lra).
  lia.
Qed.

Lemma rne_mono m1 m2 : m1 <= m2 -> (rne m1 <= rne m2)%Z.
Proof.
  intros H.
  pose proof (Qfloor_resp_le _ _ H) as Hf.
  pose proof (Qfloor_le m1) as L1. pose proof (Qlt_floor m1) as U1.
  pose proof (Qfloor_le m2) as L2. pose proof (Qlt_floor m2) as U2.
  rewrite inject_Z_plus in U1, U2.
  unfold rne.
  set (f1 := Qfloor m1) in *. set (f2 := Qfloor m2) in *.
  destruct (Z.eq_dec f1 f2) as [E | NE].
  - rewrite <- E in *.
    destruct (Qcompare_spec (m1 - inject_Z f1) (1 # 2));
      destruct (Qcompare_spec (m2 - inject_Z f1) (1 # 2));
      try lra; destruct (Z.even f1); lia.
  - destruct (m1 - inject_Z f1 ?= 1 # 2); destruct (m2 - inject_Z f2 ?= 1 # 2);
      destruct (Z.even f1); destruct (Z.even f2); lia.
Qed.

Lemma rne_Z z : rne (inject_Z z) = z.
Proof.
  unfold rne. rewrite Qfloor_Z.
  destruct (Qcompare_spec (inject_Z z - inject_Z z) (1 # 2)); [lra | reflexivity | lra].
Qed.

Lemma rne_proper m1 m2 : m1 == m2 -> rne m1 = rne m2.
Proof.
  intros H. apply Z.le_antisymm; apply rne_mono; lra.
Qed.

Lemma rne_le_Z m z : m <= inject_Z z -> (rne m <= z)%Z.
Proof. intros H. rewrite <- (rne_Z z). apply rne_mono, H. Qed.

Lemma rne_ge_Z m z : inject_Z z <= m -> (z <= rne m)%Z.
Proof. intros H. rewrite <- (rne_Z z) at 1. apply rne_mono, H. Qed.

Lemma ulp_exp_mono x y : 0 < x -> x <= y -> (ulp_exp x <= ulp_exp y)%Z.
Proof.
  intros Hx Hxy. pose proof (ex2_mono x y Hx Hxy). unfold ulp_exp. lia.
Qed.

Lemma rnd_pos_eq x : rnd_pos x == inject_Z (rne (x / pow2 (ulp_exp x))) * pow2 (ulp_exp x).
Proof. unfold rnd_pos. apply Qred_correct. Qed.

Lemma Qdiv_pow2_le x y k : x <= y -> x / pow2 k <= y / pow2 k.
Proof.
  intros H. pose proof (pow2_pos k).
  apply Qle_shift_div_l; [assumption|].
  unfold Qdiv. rewrite <- Qmult_assoc, (Qmult_comm (/ _)), Qmult_inv_r by lra. lra.
Qed.

Lemma rnd_pos_nonneg x : 0 < x -> 0 <= rnd_pos x.
Proof.
  intros Hx. rewrite rnd_pos_eq.
  pose proof (pow2_pos (ulp_exp x)) as Hp.
  assert (H0 : (0 <= rne (x / pow2 (ulp_exp x)))%Z).
  { apply rne_ge_Z. change (inject_Z 0) with 0.
    apply Qle_shift_div_l; lra. }
  rewrite Zle_Qle in H0. change (inject_Z 0) with 0 in H0.
  apply Qmult_le_0_compat; lra.
Qed.

Lemma rnd_pos_mono x y : 0 < x -> x <= y -> rnd_pos x <= rnd_pos y.
Proof.
  intros Hx Hxy.
  assert (Hy : 0 < y) by lra.
  pose proof (ulp_exp_mono x y Hx Hxy) as Hk.
  rewrite !rnd_pos_eq.
  destruct (Z.eq_dec (ulp_exp x) (ulp_exp y)) as [E | NE].
  - rewrite E. pose proof (pow2_pos (ulp_exp y)) as Hp.
    apply Qmult_le_compat_r; [| lra].
    rewrite <- Zle_Qle. apply rne_mono, Qdiv_pow2_le, Hxy.
  - destruct (ex2_spec x Hx) as [_ Hx2]. destruct (ex2_spec y Hy) as [Hy1 _].
    unfold ulp_exp in *.
    set (kx := Z.max (ex2 x - 52) (-1074)) in *.
    set (ky := Z.max (ex2 y - 52) (-1074)) in *.
    assert (Eky : ky = (ex2 y - 52)%Z) by lia.
    assert (Hex : (ex2 x + 1 <= ky + 52)%Z) by lia.
    pose proof (pow2_pos kx) as Hpx. pose proof (pow2_pos ky) as Hpy.
    apply Qle_trans with (pow2 (ky + 52)).
    + assert (Hm : (rne (x / pow2 kx) <= 2 ^ (ky + 52 - kx))%Z).
      { apply rne_le_Z. rewrite pow2_Z_inv by lia. rewrite pow2_sub.
        apply Qdiv_pow2_le. pose proof (pow2_le _ _ Hex). lra. }
      rewrite Zle_Qle, pow2_Z_inv in Hm by lia.
      pose proof (pow2_add (ky + 52 - kx) kx) as Ea.
      replace (ky + 52 - kx + kx)%Z with (ky + 52)%Z in Ea by lia.
      rewrite Ea. apply Qmult_le_compat_r; lra.
    + assert (Hm : (2 ^ 52 <= rne (y / pow2 ky))%Z).
      { apply rne_ge_Z. rewrite pow2_Z_inv by lia.
        replace 52%Z with (ex2 y - ky)%Z at 1 by lia. rewrite pow2_sub.
        apply Qdiv_pow2_le. assumption. }
      rewrite Zle_Qle, pow2_Z_inv in Hm by lia.
      rewrite (Z.add_comm ky 52), pow2_add. apply Qmult_le_compat_r; lra.
Qed.

Lemma rnd_pos_proper x y : 0 < x -> x == y -> rnd_pos x = rnd_pos y.
Proof.
  intros Hx E.
  assert (Ek : ulp_exp x = ulp_exp y).
  { unfold ulp_exp. f_equal. f_equal.
    destruct (ex2_spec x Hx). apply Z.le_antisymm; apply ex2_mono; lra. }
  unfold rnd_pos. rewrite <- Ek.
  rewrite (rne_proper (x / pow2 (ulp_exp x)) (y / pow2 (ulp_exp x))); [reflexivity|].
  unfold Qdiv. apply Qmult_comp; [exact E | reflexivity].
Qed.

(** Rounding depends only on the value, and yields one representation. *)
Lemma rnd_proper x y : x == y -> rnd x = rnd y.
Proof.
  intros E. unfold rnd.
  assert (Ec : (x ?= 0) = (y ?= 0)) by (apply Qcompare_comp; [exact E | reflexivity]).
  rewrite <- Ec.
  destruct (Qcompare_spec x 0) as [H | H | H]; [reflexivity | |].
  - f_equal. f_equal. apply rnd_pos_proper; lra.
  - apply rnd_pos_proper; lra.
Qed.

Lemma rnd_nonneg x : 0 <= x -> 0 <= rnd x.
Proof.
  intros H. unfold rnd. destruct (Qcompare_spec x 0); [lra | lra |].
  apply rnd_pos_nonneg. assumption.
Qed.

Lemma rnd_nonpos x : x <= 0 -> rnd x <= 0.
Proof.
  intros H. unfold rnd. destruct (Qcompare_spec x 0); [lra | | lra].
  rewrite Qred_correct. pose proof (rnd_pos_nonneg (- x)). lra.
Qed.

(** Rounding is monotone. *)
Lemma rnd_mono x y : x <= y -> rnd x <= rnd y.
Proof.
  intros H.
  destruct (Qlt_le_dec x 0) as [Hx | Hx]; destruct (Qlt_le_dec y 0) as [Hy | Hy].
  - unfold rnd.
    destruct (Qcompare_spec x 0); [lra | | lra].
    destruct (Qcompare_spec y 0); [lra | | lra].
    rewrite !Qred_correct.
    pose proof (rnd_pos_mono (- y) (- x)). lra.
  - apply Qle_trans with 0; [apply rnd_nonpos | apply rnd_nonneg]; lra.
  - lra.
  - unfold rnd.
    destruct (Qcompare_spec x 0) as [E | E | E]; [| lra |].
    + fold (rnd y). change (match y ?= 0 with Eq => 0 | Lt => Qred (- rnd_pos (- y)) | Gt => rnd_pos y end) with (rnd y).
      apply rnd_nonneg. assumption.
    + destruct (Qcompare_spec y 0); [lra | lra |].
      apply rnd_pos_mono; assumption.
Qed.

(** A value [m * 2^j] with an integer [m] of fewer than 54 bits and [j] at
    least -1074 is a binary64 value: rounding leaves it alone. *)
Lemma rnd_pos_exact m j :
  (0 < m < 2 ^ 53)%Z -> (-1074 <= j)%Z ->
  rnd_pos (inject_Z m * pow2 j) == inject_Z m * pow2 j.
Proof.
  intros Hm Hj.
  set (x := inject_Z m * pow2 j).
  pose proof (pow2_pos j) as Hpj.
  assert (Hm0 : 0 < inject_Z m) by (change 0 with (inject_Z 0); rewrite <- Zlt_Qlt; lia).
  assert (Hx : 0 < x) by (unfold x; nra).
  assert (Hk : (ulp_exp x <= j)%Z).
  { destruct (ex2_spec x Hx) as [H1 _].
    assert (Hlt : x < pow2 (53 + j)).
    { rewrite pow2_add, pow2_Z by lia. unfold x.
      apply Qmult_lt_compat_r; [assumption|]. rewrite <- Zlt_Qlt. lia. }
    assert (ex2 x < 53 + j)%Z by (apply pow2_lt_inv; lra).
    unfold ulp_exp. lia. }
  rewrite rnd_pos_eq.
  set (k := ulp_exp x) in *.
  pose proof (pow2_pos k) as Hpk.
  assert (Ej : pow2 j == inject_Z (2 ^ (j - k)) * pow2 k).
  { rewrite pow2_Z_inv by lia. rewrite <- pow2_add. replace (j - k + k)%Z with j by lia. reflexivity. }
  assert (Ed : x / pow2 k == inject_Z (m * 2 ^ (j - k))).
  { unfold x. rewrite Ej, inject_Z_mult. field. lra. }
  rewrite (rne_proper _ _ Ed), rne_Z.
  unfold x. rewrite Ej, inject_Z_mult. ring.
Qed.

Lemma rnd_exact m j :
  (Z.abs m < 2 ^ 53)%Z -> (-1074 <= j)%Z ->
  rnd (inject_Z m * pow2 j) == inject_Z m * pow2 j.
Proof.
  intros Hm Hj. pose proof (pow2_pos j) as Hpj.
  unfold rnd.
  destruct (Qcompare_spec (inject_Z m * pow2 j) 0) as [E | E | E].
  - lra.
  - assert (Hneg : (m < 0)%Z).
    { apply Z.nle_gt. intros Hge. rewrite Zle_Qle in Hge.
      change (inject_Z 0) with 0 in Hge. nra. }
    rewrite Qred_correct.
    rewrite (rnd_pos_proper _ (inject_Z (- m) * pow2 j)).
    + rewrite rnd_pos_exact by lia. rewrite inject_Z_opp. ring.
    + lra.
    + rewrite inject_Z_opp. ring.
  - assert (Hpos : (0 < m)%Z).
    { apply Z.nle_gt. intros Hle. rewrite Zle_Qle in Hle.
      change (inject_Z 0) with 0 in Hle. nra. }
    apply rnd_pos_exact; lia.
Qed.

End RoundingFacts.

(** *** 32-bit integers *)

Lemma toInt32_range z : - 2 ^ 31 <= toInt32 z < 2 ^ 31.
Proof.
  unfold toInt32. pose proof (Z.mod_pos_bound z (2 ^ 32) ltac:(lia)).
  destruct (Z.ltb_spec (z mod 2 ^ 32) (2 ^ 31)); lia.
Qed.

Lemma toInt32_mod z : toInt32 z mod 2 ^ 32 = z mod 2 ^ 32.
Proof.
  unfold toInt32. destruct (Z.ltb_spec (z mod 2 ^ 32) (2 ^ 31)).
  - apply Z.mod_mod. lia.
  - rewrite <- (Z.mod_mod z (2 ^ 32)) at 2 by lia.
    replace (z mod 2 ^ 32 - 2 ^ 32) with (z mod 2 ^ 32 + (-1) * 2 ^ 32) by lia.
    apply Z.mod_add. lia.
Qed.

Lemma toInt32_congr a b : a mod 2 ^ 32 = b mod 2 ^ 32 -> toInt32 a = toInt32 b.
Proof. unfold toInt32. intros ->. reflexivity. Qed.

Lemma toInt32_small z : - 2 ^ 31 <= z < 2 ^ 31 -> toInt32 z = z.
Proof.
  intros H. unfold toInt32.
  destruct (Z.leb_spec 0 z).
  - rewrite Z.mod_small by lia. destruct (Z.ltb_spec z (2 ^ 31)); lia.
  - replace (z mod 2 ^ 32) with (z + 2 ^ 32).
    + destruct (Z.ltb_spec (z + 2 ^ 32) (2 ^ 31)); lia.
    + apply Z.mod_unique with (-1); lia.
Qed.

Lemma wrap32_toInt32 z : wrap32 z = toInt32 z.
Proof.
  unfold wrap32, toInt32.
  pose proof (Z.mod_pos_bound z (2 ^ 32) ltac:(lia)) as Hu.
  destruct (Z.ltb_spec (z mod 2 ^ 32) (2 ^ 31)) as [Hlt | Hge].
  - enough ((z + 2 ^ 31) mod 2 ^ 32 = z mod 2 ^ 32 + 2 ^ 31) by lia.
    symmetry. apply Z.mod_unique with (z / 2 ^ 32); [lia|].
    pose proof (Z.div_mod z (2 ^ 32) ltac:(lia)). lia.
  - enough ((z + 2 ^ 31) mod 2 ^ 32 = z mod 2 ^ 32 - 2 ^ 31) by lia.
    symmetry. apply Z.mod_unique with (z / 2 ^ 32 + 1); [lia|].
    pose proof (Z.div_mod z (2 ^ 32) ltac:(lia)). lia.
Qed.

(** *** [hashString] *)

Lemma shl32_5 h : shl32 h 5 mod 2 ^ 32 = (h * 32) mod 2 ^ 32.
Proof.
  unfold shl32. rewrite toInt32_mod.
  change (5 mod 32) with 5. rewrite Z.shiftl_mul_pow2 by lia.
  change (2 ^ 5) with 32.
  rewrite <- Z.mul_mod_idemp_l, toInt32_mod, Z.mul_mod_idemp_l by lia.
  reflexivity.
Qed.

(** One turn of the loop is [hash*31 + charCode], wrapped to 32 bits. *)
Lemma hashStep_wrap h c : hashStep h c = wrap32 (h * 31 + c).
Proof.
  rewrite wrap32_toInt32. unfold hashStep, or0.
  rewrite Z.lor_0_r, (toInt32_small (toInt32 _)) by apply toInt32_range.
  apply toInt32_congr.
  replace (shl32 h 5 - h + c) with (shl32 h 5 + (c - h)) by lia.
  rewrite <- Z.add_mod_idemp_l, shl32_5, Z.add_mod_idemp_l by lia.
  f_equal. lia.
Qed.

Lemma hash_fold_wrap input h :
  fold_left hashStep input h = fold_left (fun hash c => wrap32 (hash * 31 + c)) input h.
Proof.
  revert h. induction input as [| c input IH]; intros h; simpl.
  - reflexivity.
  - rewrite hashStep_wrap. apply IH.
Qed.

Lemma hash_fold_range input h :
  - 2 ^ 31 <= h < 2 ^ 31 -> - 2 ^ 31 <= fold_left hashStep input h < 2 ^ 31.
Proof.
  revert h. induction input as [| c input IH]; intros h Hh; simpl.
  - assumption.
  - apply IH. rewrite hashStep_wrap, wrap32_toInt32. apply toInt32_range.
Qed.

Lemma hashString_range input : 0 <= hashString input <= 2 ^ 31.
Proof.
  unfold hashString.
  pose proof (hash_fold_range input 0 ltac:(lia)). lia.
Qed.

(** C2: [hashString] returns the absolute value of the accumulator of
    [hash = hash*31 + charCode] iterated over the code units in order with
    32-bit two's-complement wrap-around from 0; the result is a non-negative
    integer, and equal strings have equal hashes. *)
Theorem hashString_spec (input : jsstring) :
  hashString input = Z.abs (hashAccSpec input)
  /\ 0 <= hashString input
  /\ forall input' : jsstring, input = input' -> hashString input = hashString input'.
Proof.
  split; [| split].
  - unfold hashString, hashAccSpec. rewrite hash_fold_wrap. reflexivity.
  - apply hashString_range.
  - intros input' ->. reflexivity.
Qed.

Lemma hashString_spec_witness :
  hashString (str "sora") = 3536267
  /\ hashString (str "sora") = hashString (map (fun c => c) (str "sora")).
Proof.
  split.
  - rewrite (proj1 (hashString_spec (str "sora"))). reflexivity.
  - apply (proj2 (proj2 (hashString_spec (str "sora")))). reflexivity.
Defined.

(** *** Exact integer arithmetic in binary64 *)

Section ExactFacts.
Import Double.
Local Open Scope Q_scope.

Lemma Qred_inject_Z z : Qred (inject_Z z) = inject_Z z.
Proof.
  unfold Qred, inject_Z.
  pose proof (Z.ggcd_gcd z 1) as Hg.
  pose proof (Z.ggcd_correct_divisors z 1) as Hd.
  destruct (Z.ggcd z 1) as [g [aa bb]]. simpl in *.
  rewrite Z.gcd_1_r in Hg. subst g. destruct Hd as [Ha Hb].
  replace aa with z by lia. replace bb with 1%Z by lia. reflexivity.
Qed.

Lemma Qred_involutive q : Qred (Qred q) = Qred q.
Proof. apply Qred_complete, Qred_correct. Qed.

Lemma rnd_pos_canonical x : Qred (rnd_pos x) = rnd_pos x.
Proof. unfold rnd_pos. apply Qred_involutive. Qed.

Lemma rnd_canonical x : Qred (rnd x) = rnd x.
Proof.
  unfold rnd. destruct (x ?= 0).
  - reflexivity.
  - apply Qred_involutive.
  - apply rnd_pos_canonical.
Qed.

(** Two numbers of the model with the same value are the same term. *)
Lemma rnd_eq_of_Qeq x q : rnd x == q -> rnd x = Qred q.
Proof.
  intros H. rewrite <- rnd_canonical. apply Qred_complete, H.
Qed.

Lemma rnd_ofZ z : (Z.abs z < 2 ^ 53)%Z -> rnd (inject_Z z) = inject_Z z.
Proof.
  intros H. rewrite <- (Qred_inject_Z z) at 2. apply rnd_eq_of_Qeq.
  pose proof (rnd_exact z 0 H ltac:(lia)) as E.
  change (pow2 0) with 1 in E.
  rewrite (rnd_proper (inject_Z z) (inject_Z z * 1)) by ring.
  rewrite E. ring.
Qed.

Lemma mul_ofZ a b : (Z.abs (a * b) < 2 ^ 53)%Z -> mul (inject_Z a) (inject_Z b) = inject_Z (a * b).
Proof.
  intros H. unfold mul.
  rewrite (rnd_proper _ (inject_Z (a * b))) by (rewrite inject_Z_mult; reflexivity).
  apply rnd_ofZ, H.
Qed.

Lemma add_ofZ a b : (Z.abs (a + b) < 2 ^ 53)%Z -> add (inject_Z a) (inject_Z b) = inject_Z (a + b).
Proof.
  intros H. unfold add.
  rewrite (rnd_proper _ (inject_Z (a + b))) by (rewrite inject_Z_plus; reflexivity).
  apply rnd_ofZ, H.
Qed.

Lemma Qdiv_inject_Z a b : (0 < b)%Z -> inject_Z a / inject_Z b == a # Z.to_pos b.
Proof.
  intros Hb. rewrite (Qmake_Qdiv a (Z.to_pos b)), Z2Pos.id by assumption. reflexivity.
Qed.

Lemma trunc_ofZ a b : (0 < b)%Z -> trunc (inject_Z a / inject_Z b) = Z.quot a b.
Proof.
  intros Hb. unfold trunc.
  destruct (Z.leb_spec 0 a) as [Ha | Ha].
  - assert (Hq : 0 <= inject_Z a / inject_Z b).
    { apply Qle_shift_div_l.
      - change 0 with (inject_Z 0). rewrite <- Zlt_Qlt. assumption.
      - rewrite Qmult_0_l. change 0 with (inject_Z 0). rewrite <- Zle_Qle. assumption. }
    apply Qle_bool_iff in Hq. rewrite Hq.
    rewrite <- Zdiv_Qdiv. symmetry. apply Z.quot_div_nonneg; lia.
  - assert (Hq : ~ 0 <= inject_Z a / inject_Z b).
    { intros Hq.
      assert (Hb' : 0 < inject_Z b) by (change 0 with (inject_Z 0); rewrite <- Zlt_Qlt; assumption).
      assert (Ha' : inject_Z a < 0) by (change 0 with (inject_Z 0); rewrite <- Zlt_Qlt; assumption).
      assert (E : inject_Z a == inject_Z a / inject_Z b * inject_Z b) by (field; lra).
      nra. }
    destruct (Qle_bool 0 (inject_Z a / inject_Z b)) eqn:Hbool.
    + apply Qle_bool_iff in Hbool. contradiction.
    + unfold Qceiling.
      assert (E : - (inject_Z a / inject_Z b) == inject_Z (- a) / inject_Z b).
      { rewrite inject_Z_opp. field.
        assert (0 < inject_Z b) by (change 0 with (inject_Z 0); rewrite <- Zlt_Qlt; assumption).
        lra. }
      rewrite (Qfloor_comp _ _ E), <- Zdiv_Qdiv.
      rewrite <- (Z.opp_involutive a) at 2.
      rewrite Z.quot_opp_l by lia.
      rewrite Z.quot_div_nonneg by lia. reflexivity.
Qed.

Lemma rem_ofZ a b : (0 < b)%Z -> rem (inject_Z a) (inject_Z b) = inject_Z (Z.rem a b).
Proof.
  intros Hb. unfold rem. rewrite trunc_ofZ by assumption.
  rewrite <- (Qred_inject_Z (Z.rem a b)). apply Qred_complete.
  pose proof (Z.quot_rem' a b) as E.
  replace (Z.rem a b) with (a + - (Z.quot a b * b))%Z by lia.
  rewrite inject_Z_plus, inject_Z_opp, inject_Z_mult. ring.
Qed.

(** An integer below 2^53 divided by 2^32 is a binary64 value. *)
Lemma div_pow32_exact s :
  (Z.abs s < 2 ^ 53)%Z -> div (inject_Z s) 4294967296 == inject_Z s / 4294967296.
Proof.
  intros H. unfold div.
  assert (E : inject_Z s / 4294967296 == inject_Z s * pow2 (-32)).
  { unfold pow2. simpl. field. }
  rewrite (rnd_proper _ _ E), rnd_exact by lia.
  symmetry. exact E.
Qed.

End ExactFacts.

(** *** The generator *)

Section GeneratorFacts.
Import Double.
Local Open Scope Q_scope.

Lemma lcgSpec_range s : (0 <= lcgSpec s < 2 ^ 32)%Z.
Proof. unfold lcgSpec. apply Z.mod_pos_bound. lia. Qed.

(** On a state that is an integer in [0, 2^32] every operation of the
    closure body is exact: the new state is
    [(state*1664525 + 1013904223) mod 2^32]. *)
Lemma lcgNext_exact s :
  (0 <= s <= 2 ^ 32)%Z ->
  lcgNext (inject_Z s) = (div (inject_Z (lcgSpec s)) 4294967296, inject_Z (lcgSpec s)).
Proof.
  intros Hs. unfold lcgNext.
  change 1664525 with (inject_Z 1664525).
  change 1013904223 with (inject_Z 1013904223).
  change 4294967296 with (inject_Z 4294967296).
  rewrite mul_ofZ by lia. rewrite add_ofZ by lia. rewrite rem_ofZ by lia.
  rewrite Z.rem_mod_nonneg by lia. reflexivity.
Qed.

Lemma stateAfter_S state n :
  stateAfter state (S n) = snd (lcgNext (stateAfter state n)).
Proof. reflexivity. Qed.

Lemma lcgNext_stateAfter state n :
  lcgNext (stateAfter state n) = (draw state (S n), stateAfter state (S n)).
Proof.
  unfold draw. rewrite stateAfter_S.
  replace (S n - 1)%nat with n by lia. reflexivity.
Qed.

Lemma iter_lcgSpec_range s n :
  (0 <= s <= 2 ^ 32)%Z -> (0 <= Nat.iter n lcgSpec s <= 2 ^ 32)%Z.
Proof.
  intros Hs. destruct n; simpl; [assumption|].
  pose proof (lcgSpec_range (Nat.iter n lcgSpec s)). lia.
Qed.

Lemma stateAfter_exact s n :
  (0 <= s <= 2 ^ 32)%Z ->
  stateAfter (inject_Z s) n = inject_Z (Nat.iter n lcgSpec s).
Proof.
  intros Hs. induction n as [| n IH].
  - reflexivity.
  - rewrite stateAfter_S, IH.
    rewrite lcgNext_exact by (apply iter_lcgSpec_range; assumption).
    reflexivity.
Qed.

(** The [n]-th value returned is the [n]-th state divided by 2^32, exactly. *)
Lemma draw_exact s n :
  (0 <= s <= 2 ^ 32)%Z -> (1 <= n)%nat ->
  draw (inject_Z s) n == inject_Z (Nat.iter n lcgSpec s) / 4294967296.
Proof.
  intros Hs Hn. destruct n as [| n]; [lia|].
  unfold draw. replace (S n - 1)%nat with n by lia.
  rewrite stateAfter_exact by assumption.
  rewrite lcgNext_exact by (apply iter_lcgSpec_range; assumption).
  simpl fst. simpl Nat.iter.
  apply div_pow32_exact.
  pose proof (lcgSpec_range (Nat.iter n lcgSpec s)). lia.
Qed.

Lemma draw_unit s n :
  (0 <= s <= 2 ^ 32)%Z -> (1 <= n)%nat -> unitDraw (draw (inject_Z s) n).
Proof.
  intros Hs Hn. unfold unitDraw. rewrite (draw_exact s n Hs Hn).
  destruct n as [| n]; [lia|]. simpl Nat.iter.
  pose proof (lcgSpec_range (Nat.iter n lcgSpec s)) as [H1 H2].
  set (z := lcgSpec _) in *.
  assert (H3 : (z <= 4294967295)%Z) by lia.
  rewrite Zle_Qle in H1, H3. change (inject_Z 0) with 0 in H1.
  change (inject_Z 4294967295) with 4294967295 in H3.
  split.
  - apply Qle_shift_div_l; [reflexivity | lra].
  - apply Qle_shift_div_r; [reflexivity |].
    assert (E : (4294967295 # 4294967296) * 4294967296 == 4294967295) by reflexivity.
    rewrite E. assumption.
Qed.

End GeneratorFacts.

(** *** Closures and the store *)

Section StoreFacts.
Import Double.
Local Open Scope Q_scope.

Lemma fst_pair {A B} (a : A) (b : B) : fst (a, b) = a.
Proof. reflexivity. Qed.

Lemma snd_pair {A B} (a : A) (b : B) : snd (a, b) = b.
Proof. reflexivity. Qed.

Lemma createRng_lookup seed (σ : Store) :
  snd (createRng seed σ) !! fst (createRng seed σ) = Some (orOne seed).
Proof.
  unfold createRng. cbn [fst snd].
  rewrite lookup_app_r by lia. rewrite Nat.sub_diag. reflexivity.
Qed.

Lemma createRng_old seed (σ : Store) (g : Rng) s :
  σ !! g = Some s -> snd (createRng seed σ) !! g = Some s.
Proof. intros H. unfold createRng. cbn [fst snd]. apply lookup_app_l_Some, H. Qed.

Lemma createRng_fresh seed (σ : Store) (g : Rng) s :
  σ !! g = Some s -> g <> fst (createRng seed σ).
Proof. intros H. apply lookup_lt_Some in H. unfold createRng. cbn [fst snd]. lia. Qed.

Lemma withRng_some {A} (g : Rng) (m : Draw A) (σ : Store) s :
  σ !! g = Some s -> withRng g m σ = (fst (m s), <[g := snd (m s)]> σ).
Proof. intros H. unfold withRng. rewrite H. destruct (m s). reflexivity. Qed.

(** Running a sequence against the cell is running its parts in turn: the
    calls of [rng] inside a builder are calls on the one cell. *)
Lemma withRng_bind {A B} (g : Rng) (m : Draw A) (k : A -> Draw B) (σ : Store) s :
  σ !! g = Some s ->
  withRng g (x <- m ;; k x) σ =
  let (a, σ') := withRng g m σ in withRng g (k a) σ'.
Proof.
  intros H. pose proof (lookup_lt_Some _ _ _ H) as Hlt.
  rewrite (withRng_some g _ σ s H), (withRng_some g m σ s H).
  unfold bind. destruct (m s) as [a s'] eqn:E. simpl.
  rewrite (withRng_some g (k a) _ s') by (apply list_lookup_insert_eq, Hlt).
  rewrite list_insert_insert_eq. reflexivity.
Qed.

Lemma withRng_createRng {A} seed (m : Draw A) (σ : Store) :
  (let (rng, σ') := createRng seed σ in withRng rng m σ') =
  (fst (m (orOne seed)), σ ++ [snd (m (orOne seed))]).
Proof.
  unfold createRng.
  rewrite (withRng_some (length σ) m _ (orOne seed)).
  - f_equal.
    replace (length σ) with (length σ + 0)%nat at 1 by lia.
    rewrite insert_app_r. reflexivity.
  - rewrite lookup_app_r by lia. rewrite Nat.sub_diag. reflexivity.
Qed.

Lemma callRng_some (g : Rng) (σ : Store) state n :
  σ !! g = Some (stateAfter state n) ->
  callRng g σ = (draw state (S n), <[g := stateAfter state (S n)]> σ).
Proof.
  intros H. unfold callRng. rewrite (withRng_some g lcgNext σ _ H).
  rewrite lcgNext_stateAfter. reflexivity.
Qed.

(** Two closures never share a cell: whatever the order of the calls, each
    returns the values of its own sequence. *)
Lemma interleave_streams (g1 g2 : Rng) state1 state2 schedule :
  g1 <> g2 ->
  forall (σ : Store) n1 n2,
    σ !! g1 = Some (stateAfter state1 n1) ->
    σ !! g2 = Some (stateAfter state2 n2) ->
    let (out1, out2) := interleave g1 g2 schedule σ in
    out1 = map (draw state1) (seq (S n1) (length out1))
    /\ out2 = map (draw state2) (seq (S n2) (length out2))
    /\ (length out1 + length out2 = length schedule)%nat.
Proof.
  intros Hne. induction schedule as [| b schedule IH]; intros σ n1 n2 H1 H2.
  - simpl. auto.
  - simpl. destruct b.
    + rewrite (callRng_some g1 σ state1 n1 H1).
      specialize (IH (<[g1 := stateAfter state1 (S n1)]> σ) (S n1) n2).
      destruct (interleave g1 g2 schedule _) as [out1 out2].
      destruct IH as (E1 & E2 & E3).
      * apply list_lookup_insert_eq. eapply lookup_lt_Some, H1.
      * rewrite list_lookup_insert_ne by assumption. exact H2.
      * simpl. repeat split; [f_equal; exact E1 | exact E2 | lia].
    + rewrite (callRng_some g2 σ state2 n2 H2).
      specialize (IH (<[g2 := stateAfter state2 (S n2)]> σ) n1 (S n2)).
      destruct (interleave g1 g2 schedule _) as [out1 out2].
      destruct IH as (E1 & E2 & E3).
      * rewrite list_lookup_insert_ne by auto. exact H1.
      * apply list_lookup_insert_eq. eapply lookup_lt_Some, H2.
      * simpl. repeat split; [exact E1 | f_equal; exact E2 | lia].
Qed.

Lemma orOne_ofZ seed : orOne (ofZ seed) = ofZ (if (seed =? 0)%Z then 1 else seed).
Proof.
  unfold orOne, ofZ.
  destruct (Z.eqb_spec seed 0) as [-> | Hne]; [reflexivity|].
  destruct (Qeq_bool (inject_Z seed) 0) eqn:E; [| reflexivity].
  apply Qeq_bool_eq in E. unfold Qeq in E. simpl in E. lia.
Qed.

End StoreFacts.

(** *** Seeds beyond 2^32 *)

Section SeedFacts.
Import Double.
Local Open Scope Q_scope.

(** Rounding a non-negative integer gives a non-negative integer: below
    2^53 it is kept, above the spacing of the binary64 values is at least
    2. *)
Lemma rnd_integral z :
  (0 <= z)%Z -> exists z', (0 <= z')%Z /\ rnd (inject_Z z) = inject_Z z'.
Proof.
  intros Hz. destruct (Z_lt_le_dec z (2 ^ 53)) as [Hs | Hb].
  - exists z. split; [exact Hz | apply rnd_ofZ; lia].
  - set (y := inject_Z z).
    assert (Hy : pow2 53 <= y).
    { rewrite (pow2_Z 53) by lia. subst y. rewrite <- Zle_Qle. exact Hb. }
    assert (Hy0 : 0 < y) by (pose proof (pow2_pos 53); lra).
    assert (Er : rnd y = rnd_pos y).
    { unfold rnd. destruct (Qcompare_spec y 0); [lra | lra | reflexivity]. }
    assert (He : (53 <= ex2 y)%Z).
    { destruct (ex2_spec y Hy0) as [_ H2].
      assert (H3 : pow2 53 < pow2 (ex2 y + 1)) by lra.
      apply pow2_lt_inv in H3. lia. }
    assert (Hk : (0 <= ulp_exp y)%Z) by (unfold ulp_exp; lia).
    pose proof (rnd_pos_eq y) as E.
    set (k := ulp_exp y) in *. set (n := rne (y / pow2 k)) in *.
    assert (E' : rnd y == inject_Z (n * 2 ^ k)).
    { rewrite Er, E, inject_Z_mult, (pow2_Z k Hk). reflexivity. }
    exists (n * 2 ^ k)%Z. split.
    + pose proof (rnd_nonneg y (Qlt_le_weak _ _ Hy0)) as H0.
      rewrite E' in H0. change 0 with (inject_Z 0) in H0.
      rewrite <- Zle_Qle in H0. exact H0.
    + rewrite <- (Qred_inject_Z (n * 2 ^ k)). apply rnd_eq_of_Qeq, E'.
Qed.

(** Called on any non-negative integer state, the closure leaves an
    integer state of [0, 2^32) and returns it divided by 2^32. *)
Lemma lcgNext_integral s :
  (0 <= s)%Z ->
  exists z, (0 <= z < 2 ^ 32)%Z
            /\ lcgNext (inject_Z s) = (div (inject_Z z) 4294967296, inject_Z z).
Proof.
  intros Hs. unfold lcgNext.
  change 1664525 with (inject_Z 1664525).
  change 1013904223 with (inject_Z 1013904223).
  change 4294967296 with (inject_Z 4294967296).
  unfold mul. rewrite (rnd_proper _ (inject_Z (s * 1664525)))
    by (rewrite inject_Z_mult; reflexivity).
  destruct (rnd_integral (s * 1664525) ltac:(lia)) as (p & Hp & ->).
  unfold add. rewrite (rnd_proper _ (inject_Z (p + 1013904223)))
    by (rewrite inject_Z_plus; reflexivity).
  destruct (rnd_integral (p + 1013904223) ltac:(lia)) as (x & Hx & ->).
  rewrite rem_ofZ by lia.
  exists (Z.rem x 4294967296). split; [| reflexivity].
  pose proof (Z.rem_bound_pos x 4294967296 Hx ltac:(lia)). lia.
Qed.

(** The arithmetic of the closure is exact as long as
    [state*1664525 + 1013904223] stays below 2^53, that is for states up
    to 5411272429. *)
Lemma lcgNext_exact_wide s :
  (0 <= s <= 5411272429)%Z ->
  lcgNext (inject_Z s) = (div (inject_Z (lcgSpec s)) 4294967296, inject_Z (lcgSpec s)).
Proof.
  intros Hs. unfold lcgNext.
  change 1664525 with (inject_Z 1664525).
  change 1013904223 with (inject_Z 1013904223).
  change 4294967296 with (inject_Z 4294967296).
  rewrite mul_ofZ by lia. rewrite add_ofZ by lia. rewrite rem_ofZ by lia.
  rewrite Z.rem_mod_nonneg by lia. reflexivity.
Qed.

Lemma iter_lcgSpec_range_wide s n :
  (0 <= s <= 5411272429)%Z -> (0 <= Nat.iter n lcgSpec s <= 5411272429)%Z.
Proof.
  intros Hs. destruct n; simpl; [assumption|].
  pose proof (lcgSpec_range (Nat.iter n lcgSpec s)). lia.
Qed.

Lemma stateAfter_exact_wide s n :
  (0 <= s <= 5411272429)%Z ->
  stateAfter (inject_Z s) n = inject_Z (Nat.iter n lcgSpec s).
Proof.
  intros Hs. induction n as [| n IH].
  - reflexivity.
  - rewrite stateAfter_S, IH.
    rewrite lcgNext_exact_wide by (apply iter_lcgSpec_range_wide; assumption).
    reflexivity.
Qed.

(** Every call on a generator started from a non-negative integer leaves
    an integer of [0, 2^32) and returns it divided by 2^32. *)
Lemma stateAfter_integral s n :
  (0 <= s)%Z ->
  exists z, (0 <= z < 2 ^ 32)%Z
            /\ stateAfter (inject_Z s) (S n) = inject_Z z
            /\ draw (inject_Z s) (S n) = div (inject_Z z) 4294967296.
Proof.
  intros Hs. induction n as [| n (z & Hz & Es & _)].
  - destruct (lcgNext_integral s Hs) as (z & Hz & E).
    exists z. split; [exact Hz|].
    pose proof (lcgNext_stateAfter (inject_Z s) 0) as E0.
    change (stateAfter (inject_Z s) 0) with (inject_Z s) in E0.
    rewrite E in E0.
    pose proof (f_equal fst E0) as E1. pose proof (f_equal snd E0) as E2.
    rewrite !fst_pair in E1. rewrite !snd_pair in E2.
    split; [exact (eq_sym E2) | exact (eq_sym E1)].
  - exists (lcgSpec z). split; [apply lcgSpec_range|].
    pose proof (lcgNext_stateAfter (inject_Z s) (S n)) as E0.
    rewrite Es, lcgNext_exact in E0 by lia.
    pose proof (f_equal fst E0) as E1. pose proof (f_equal snd E0) as E2.
    rewrite !fst_pair in E1. rewrite !snd_pair in E2.
    split; [exact (eq_sym E2) | exact (eq_sym E1)].
Qed.

Lemma unit_quotient z :
  (0 <= z < 2 ^ 32)%Z ->
  0 <= inject_Z z / 4294967296 /\ inject_Z z / 4294967296 < 1.
Proof.
  intros [H1 H2]. rewrite Zle_Qle in H1. rewrite Zlt_Qlt in H2.
  change (inject_Z 0) with 0 in H1.
  change (inject_Z (2 ^ 32)) with 4294967296 in H2.
  split.
  - apply Qle_shift_div_l; [reflexivity | lra].
  - apply Qlt_shift_div_r; [reflexivity | lra].
Qed.

End SeedFacts.

(** C3 (amended): for every integer seed the generator starts from the
    seed (from 1 when the seed is 0), and two generators made from one seed
    return the same values at the same positions, in whatever order they
    are called.  For a seed of [0, 2^53], the non-negative integers a
    number holds exactly, every call leaves an integer state of [0, 2^32)
    and returns that state divided by 2^32, a value of [0, 1).  For a seed
    of [0, 5411272429], where [state*1664525 + 1013904223] stays below
    2^53, each call replaces the state by
    [(state*1664525 + 1013904223) mod 2^32]. *)
Theorem createRng_spec (seed : Z) (σ : Store) :
  let s0 := if (seed =? 0)%Z then 1%Z else seed in
  let g := fst (createRng (Double.ofZ seed) σ) in
  let σ0 := snd (createRng (Double.ofZ seed) σ) in
  σ0 !! g = Some (Double.ofZ s0)
  /\ ((0 <= seed <= 5411272429)%Z ->
      forall n : nat,
        let σn := callsOn g n σ0 in
        let state := Nat.iter n lcgSpec s0 in
        σn !! g = Some (Double.ofZ state)
        /\ snd (callRng g σn) !! g = Some (Double.ofZ (lcgSpec state))
        /\ (fst (callRng g σn) == Double.ofZ (lcgSpec state) / 4294967296)%Q)
  /\ ((0 <= seed <= 2 ^ 53)%Z ->
      forall n : nat,
        let σn := callsOn g n σ0 in
        exists state' : Z,
          (0 <= state' < 2 ^ 32)%Z
          /\ snd (callRng g σn) !! g = Some (Double.ofZ state')
          /\ (fst (callRng g σn) == Double.ofZ state' / 4294967296)%Q
          /\ (0 <= fst (callRng g σn))%Q /\ (fst (callRng g σn) < 1)%Q)
  /\ (forall schedule : list bool,
        let g' := fst (createRng (Double.ofZ seed) σ0) in
        let σ1 := snd (createRng (Double.ofZ seed) σ0) in
        forall (k : nat) r r',
          fst (interleave g g' schedule σ1) !! k = Some r ->
          snd (interleave g g' schedule σ1) !! k = Some r' ->
          r = r').
Proof.
  intros s0 g σ0.
  assert (H0 : σ0 !! g = Some (Double.ofZ s0)).
  { subst σ0 g s0. rewrite createRng_lookup. f_equal. apply orOne_ofZ. }
  assert (Hn : forall n, callsOn g n σ0 !! g = Some (stateAfter (Double.ofZ s0) n)).
  { induction n as [| n IH]; [exact H0|].
    unfold callsOn in *. simpl Nat.iter.
    rewrite (callRng_some g _ _ n IH). cbn [snd].
    apply list_lookup_insert_eq. eapply lookup_lt_Some, IH. }
  split; [exact H0 | split; [| split]].
  - intros Hseed n σn state.
    assert (Hs0 : (0 <= s0 <= 5411272429)%Z)
      by (subst s0; destruct (Z.eqb_spec seed 0); lia).
    pose proof (Hn n) as Hσ. fold σn in Hσ.
    rewrite (callRng_some g σn _ n Hσ). cbn [fst snd].
    unfold Double.ofZ in *.
    pose proof (iter_lcgSpec_range_wide s0 n Hs0) as Hr. fold state in Hr.
    assert (Hd : (draw (inject_Z s0) (S n) == inject_Z (lcgSpec state) / 4294967296)%Q).
    { unfold draw. replace (S n - 1)%nat with n by lia.
      rewrite stateAfter_exact_wide by assumption. fold state.
      rewrite lcgNext_exact_wide by assumption. cbn [fst].
      apply div_pow32_exact. pose proof (lcgSpec_range state). lia. }
    rewrite stateAfter_exact_wide in Hσ by assumption.
    repeat split.
    + exact Hσ.
    + rewrite list_lookup_insert_eq by (eapply lookup_lt_Some, Hσ).
      rewrite stateAfter_exact_wide by assumption. reflexivity.
    + exact Hd.
  - intros Hseed n σn.
    assert (Hs0 : (0 <= s0)%Z) by (subst s0; destruct (Z.eqb_spec seed 0); lia).
    pose proof (Hn n) as Hσ. fold σn in Hσ.
    rewrite (callRng_some g σn _ n Hσ). cbn [fst snd].
    unfold Double.ofZ in *.
    destruct (stateAfter_integral s0 n Hs0) as (z & Hz & Es & Ed).
    exists z. rewrite Es, Ed.
    pose proof (div_pow32_exact z ltac:(lia)) as Eq.
    destruct (unit_quotient z Hz) as [Q1 Q2].
    split; [exact Hz|]. split.
    + apply list_lookup_insert_eq. eapply lookup_lt_Some, Hσ.
    + split; [exact Eq|]. rewrite Eq. split; assumption.
  - intros schedule g' σ1 k r r' Hr Hr'.
    assert (Hg : σ1 !! g = Some (stateAfter (Double.ofZ s0) 0)).
    { subst σ1. apply createRng_old. exact H0. }
    assert (Hg' : σ1 !! g' = Some (stateAfter (Double.ofZ s0) 0)).
    { subst σ1 g'. rewrite createRng_lookup. simpl. subst s0. f_equal. apply orOne_ofZ. }
    assert (Hne : g <> g') by (subst g'; eapply createRng_fresh, H0).
    pose proof (interleave_streams g g' _ _ schedule Hne σ1 0 0 Hg Hg') as HI.
    destruct (interleave g g' schedule σ1) as [out1 out2]. cbn [fst snd] in *.
    destruct HI as (E1 & E2 & _).
    rewrite E1 in Hr. rewrite E2 in Hr'.
    rewrite list_lookup_fmap in Hr, Hr'.
    destruct (seq 1 (length out1) !! k) as [i |] eqn:Ei; [| discriminate].
    destruct (seq 1 (length out2) !! k) as [j |] eqn:Ej; [| discriminate].
    apply lookup_seq in Ei, Ej. simpl in Hr, Hr'.
    destruct Ei as [-> _]. destruct Ej as [-> _]. congruence.
Qed.

Lemma createRng_spec_witness :
  (0 <= 2 ^ 32 <= 5411272429)%Z
  /\ snd (callRng (fst (createRng (Double.ofZ (2 ^ 32)) []))
                  (snd (createRng (Double.ofZ (2 ^ 32)) [])))
       !! fst (createRng (Double.ofZ (2 ^ 32)) [])
     = Some (Double.ofZ (lcgSpec (2 ^ 32))).
Proof.
  split; [lia|].
  exact (proj1 (proj2 (proj1 (proj2 (createRng_spec (2 ^ 32) [])) ltac:(lia) 0%nat))).
Defined.

(** Counterexamples to C3 as stated.  A negative seed: the first value
    returned by [createRng(-1000)] is negative.  A seed above 5411272429:
    the product [5411272430 * 1664525] is not a binary64 value, and the
    first call of [createRng(5411272430)] leaves the state 708980 where
    [(state*1664525 + 1013904223) mod 2^32] is 708981. *)
Lemma createRng_seed_out_of_range :
  (fst (callRng (fst (createRng (Double.ofZ (-1000)) []))
                (snd (createRng (Double.ofZ (-1000)) []))) < 0)%Q
  /\ snd (callRng (fst (createRng (Double.ofZ 5411272430) []))
                  (snd (createRng (Double.ofZ 5411272430) [])))
       !! fst (createRng (Double.ofZ 5411272430) [])
     = Some (Double.ofZ 708980)
  /\ lcgSpec 5411272430 = 708981%Z.
Proof. vm_compute. split; [reflexivity | split; reflexivity]. Qed.

(** *** The order of the draws in [buildScene] *)

Section DrawOrder.
Import Double Scene.
Local Open Scope nat_scope.

Variable state : num.

Lemma run_next k :
  lcgNext (stateAfter state k) = (draw state (1 + k), stateAfter state (1 + k)).
Proof. apply lcgNext_stateAfter. Qed.

Ltac step_draws :=
  unfold bind, ret; repeat (rewrite lcgNext_stateAfter; cbv beta iota).

Lemma run_buildLayer hue i k :
  buildLayer hue i (stateAfter state k) =
  (layerOf hue i (draw state (1 + k)) (draw state (2 + k)) (draw state (3 + k))
           (draw state (4 + k)) (draw state (5 + k)) (draw state (6 + k))
           (draw state (7 + k)) (draw state (8 + k)),
   stateAfter state (8 + k)).
Proof. unfold buildLayer. step_draws. reflexivity. Qed.

Lemma run_buildSpark k :
  buildSpark (stateAfter state k) =
  (sparkOf (draw state (1 + k)) (draw state (2 + k)) (draw state (3 + k))
           (draw state (4 + k)) (draw state (5 + k)),
   stateAfter state (5 + k)).
Proof. unfold buildSpark. step_draws. reflexivity. Qed.

(** A callback that makes [c] calls, mapped over [n] indices, makes [c * n]
    calls; the element at index [i] is built after [c * i] of them. *)
Lemma mapM_draws {A} (f : nat -> Draw A) (g : nat -> nat -> A) (c : nat) :
  (forall i k, f i (stateAfter state k) = (g k i, stateAfter state (c + k))) ->
  forall n a k,
    mapM f (seq a n) (stateAfter state k) =
    (map (fun i => g (c * (i - a) + k) i) (seq a n), stateAfter state (c * n + k)).
Proof.
  intros Hf. induction n as [| n IH]; intros a k.
  - simpl. unfold ret. rewrite Nat.mul_0_r. reflexivity.
  - simpl seq. simpl mapM. unfold bind at 1. rewrite Hf.
    unfold bind at 1. rewrite (IH (S a) (c + k)). unfold ret.
    f_equal.
    + simpl map. f_equal.
      * rewrite Nat.sub_diag, Nat.mul_0_r. reflexivity.
      * apply map_ext_in. intros i Hi. apply in_seq in Hi.
        f_equal. replace (i - a) with (S (i - S a)) by lia.
        rewrite Nat.mul_succ_r. lia.
    + f_equal. rewrite Nat.mul_succ_r. lia.
Qed.

Lemma run_layers hue n :
  mapM (buildLayer hue) (seq 0 n) (stateAfter state 1) =
  (map (layerAt hue (draw state) 1) (seq 0 n), stateAfter state (8 * n + 1)).
Proof.
  rewrite (mapM_draws (buildLayer hue)
             (fun k i => layerOf hue i (draw state (1 + k)) (draw state (2 + k))
                (draw state (3 + k)) (draw state (4 + k)) (draw state (5 + k))
                (draw state (6 + k)) (draw state (7 + k)) (draw state (8 + k))) 8).
  - f_equal. apply map_ext. intros i. unfold layerAt. rewrite Nat.sub_0_r. reflexivity.
  - intros i k. apply run_buildLayer.
Qed.

Lemma run_sparks n base :
  mapM (fun _ => buildSpark) (seq 0 n) (stateAfter state base) =
  (map (sparkAt (draw state) base) (seq 0 n), stateAfter state (5 * n + base)).
Proof.
  rewrite (mapM_draws (fun _ => buildSpark)
             (fun k _ => sparkOf (draw state (1 + k)) (draw state (2 + k))
                (draw state (3 + k)) (draw state (4 + k)) (draw state (5 + k))) 5).
  - f_equal. apply map_ext. intros i. unfold sparkAt. rewrite Nat.sub_0_r. reflexivity.
  - intros i k. apply run_buildSpark.
Qed.

(** The blueprint in closed form: which call of the generator yields which
    field. *)
Lemma fromHash_draws baseHash :
  let d := draw state in
  let L := Z.to_nat (layerCountOf (d 1)) in
  let S := Z.to_nat (sparkCountOf (d (8 * L + 2))) in
  fromHash baseHash state =
  ({| layers := map (layerAt (hueOf baseHash) d 1) (seq 0 L);
      sparks := map (sparkAt d (8 * L + 2)) (seq 0 S);
      background := backgroundOf baseHash;
      pulse := pulseOf (d (5 * S + 8 * L + 3));
      distort := distortOf (d (5 * S + 8 * L + 4)) |},
   stateAfter state (5 * S + 8 * L + 4)).
Proof.
  intros d L S. unfold fromHash.
  change state with (stateAfter state 0) at 1.
  unfold bind at 1. rewrite run_next. cbv beta iota.
  unfold bind at 1. change (1 + 0) with 1. fold d. fold L.
  rewrite run_layers.
  unfold bind at 1. rewrite run_next. fold d.
  replace (1 + (8 * L + 1)) with (8 * L + 2) by lia. fold S.
  unfold bind at 1. rewrite run_sparks.
  unfold bind at 1. rewrite run_next.
  unfold bind at 1. rewrite run_next. unfold ret. fold d.
  replace (1 + (5 * S + (8 * L + 2))) with (5 * S + 8 * L + 3) by lia.
  replace (1 + (5 * S + 8 * L + 3)) with (5 * S + 8 * L + 4) by lia.
  reflexivity.
Qed.

End DrawOrder.

(** *** Ranges of the fields *)

Section Ranges.
Import Double Scene.
Local Open Scope Q_scope.

Lemma mul_mono_l x y c : 0 <= c -> x <= y -> mul x c <= mul y c.
Proof. intros Hc H. apply rnd_mono, Qmult_le_compat_r; assumption. Qed.

Lemma add_mono_r c x y : x <= y -> add c x <= add c y.
Proof. intros H. apply rnd_mono. lra. Qed.

Lemma add_mono_l c x y : x <= y -> add x c <= add y c.
Proof. intros H. apply rnd_mono. lra. Qed.

Lemma sub_mono_l c x y : x <= y -> sub x c <= sub y c.
Proof. intros H. apply rnd_mono. lra. Qed.

Lemma lit_nonneg q : 0 <= q -> 0 <= lit q.
Proof. apply rnd_nonneg. Qed.

(** An affine field [a + r * b] with [b] not negative lies between its
    values at the least and the greatest value a call can return. *)
Lemma affine_bounds a b r :
  0 <= b -> unitDraw r ->
  add a (mul 0 b) <= add a (mul r b)
  /\ add a (mul r b) <= add a (mul (4294967295 # 4294967296) b).
Proof.
  intros Hb [H0 H1]. split; apply add_mono_r, mul_mono_l; assumption.
Qed.

Ltac by_computation :=
  match goal with
  | |- _ <= _ => apply Qle_bool_iff; vm_compute; reflexivity
  | |- _ < _ => apply Qlt_alt; vm_compute; reflexivity
  end.

Ltac affine_range a b r Hr :=
  let H := fresh in
  pose proof (affine_bounds a b r ltac:(by_computation) Hr) as [? H];
  split;
  [ eapply Qle_trans; [| eassumption]; by_computation
  | eapply Qle_lt_trans; [exact H |]; by_computation ].

Lemma radius_range r : unitDraw r ->
  0.25 <= add (lit 0.25) (mul r (lit 0.65)) /\ add (lit 0.25) (mul r (lit 0.65)) < 0.9.
Proof. intros Hr. affine_range (lit 0.25) (lit 0.65) r Hr. Qed.

Lemma speed_range r : unitDraw r ->
  0.2 <= add (lit 0.2) (mul r (lit 0.9)) /\ add (lit 0.2) (mul r (lit 0.9)) < 1.1.
Proof. intros Hr. affine_range (lit 0.2) (lit 0.9) r Hr. Qed.

Lemma variance_range r : unitDraw r ->
  0.2 <= add (lit 0.2) (mul r (lit 0.6)) /\ add (lit 0.2) (mul r (lit 0.6)) < 0.8.
Proof. intros Hr. affine_range (lit 0.2) (lit 0.6) r Hr. Qed.

Lemma distance_range r : unitDraw r ->
  0.1 <= add (lit 0.1) (mul r (lit 0.9)) /\ add (lit 0.1) (mul r (lit 0.9)) < 1.
Proof. intros Hr. affine_range (lit 0.1) (lit 0.9) r Hr. Qed.

Lemma size_range r : unitDraw r ->
  1 <= add 1 (mul r 2) /\ add 1 (mul r 2) < 3.
Proof. intros Hr. affine_range 1 2 r Hr. Qed.

Lemma drift_range r : unitDraw r ->
  0.5 <= add (lit 0.5) (mul r (lit 1.5)) /\ add (lit 0.5) (mul r (lit 1.5)) < 2.
Proof. intros Hr. affine_range (lit 0.5) (lit 1.5) r Hr. Qed.

Lemma pulse_range r : unitDraw r -> 0.4 <= pulseOf r /\ pulseOf r < 0.8.
Proof. intros Hr. unfold pulseOf. affine_range (lit 0.4) (lit 0.4) r Hr. Qed.

Lemma distort_range r : unitDraw r -> 0.5 <= distortOf r /\ distortOf r < 1.4.
Proof. intros Hr. unfold distortOf. affine_range (lit 0.5) (lit 0.9) r Hr. Qed.

Lemma turn_range r : unitDraw r ->
  0 <= mul (mul r PI) 2 /\ mul (mul r PI) 2 < 2 * PI.
Proof.
  intros [H0 H1]. split.
  - apply Qle_trans with (mul (mul 0 PI) 2); [by_computation|].
    apply mul_mono_l; [by_computation|]. apply mul_mono_l; [by_computation | assumption].
  - apply Qle_lt_trans with (mul (mul (4294967295 # 4294967296) PI) 2); [| by_computation].
    apply mul_mono_l; [by_computation|]. apply mul_mono_l; [by_computation | assumption].
Qed.

Lemma hueShift_range r : unitDraw r ->
  -20 <= mul (sub r (lit 0.5)) 40 /\ mul (sub r (lit 0.5)) 40 < 20.
Proof.
  intros [H0 H1]. split.
  - apply Qle_trans with (mul (sub 0 (lit 0.5)) 40); [by_computation|].
    apply mul_mono_l; [by_computation|]. apply sub_mono_l. assumption.
  - apply Qle_lt_trans with (mul (sub (4294967295 # 4294967296) (lit 0.5)) 40); [| by_computation].
    apply mul_mono_l; [by_computation|]. apply sub_mono_l. assumption.
Qed.

Lemma floor_mul_range r c :
  0 <= c -> unitDraw r ->
  (floor (mul 0 c) <= floor (mul r c) <= floor (mul (4294967295 # 4294967296) c))%Z.
Proof.
  intros Hc [H0 H1]. unfold floor.
  split; apply Qfloor_resp_le, mul_mono_l; assumption.
Qed.

Lemma layerCount_range r : unitDraw r -> (5 <= layerCountOf r <= 9)%Z.
Proof.
  intros Hr. unfold layerCountOf.
  pose proof (floor_mul_range r 5 ltac:(by_computation) Hr) as [H1 H2].
  change (floor (mul 0 5)) with 0%Z in H1.
  replace (floor (mul (4294967295 # 4294967296) 5)) with 4%Z in H2 by (vm_compute; reflexivity).
  lia.
Qed.

Lemma sparkCount_range r : unitDraw r -> (120 <= sparkCountOf r <= 299)%Z.
Proof.
  intros Hr. unfold sparkCountOf.
  pose proof (floor_mul_range r 180 ltac:(by_computation) Hr) as [H1 H2].
  change (floor (mul 0 180)) with 0%Z in H1.
  replace (floor (mul (4294967295 # 4294967296) 180)) with 179%Z in H2 by (vm_compute; reflexivity).
  lia.
Qed.

Lemma layerOf_range hue i r1 r2 r3 r4 r5 r6 r7 r8 :
  unitDraw r5 -> unitDraw r6 -> unitDraw r7 -> unitDraw r8 ->
  layerInRange (layerOf hue i r1 r2 r3 r4 r5 r6 r7 r8).
Proof.
  intros H5 H6 H7 H8. unfold layerInRange, layerOf. cbn [radius rotation speed variance].
  split; [exact (radius_range r5 H5) |].
  split; [exact (turn_range r6 H6) |].
  split; [exact (speed_range r7 H7) | exact (variance_range r8 H8)].
Qed.

Lemma sparkOf_range r1 r2 r3 r4 r5 :
  unitDraw r1 -> unitDraw r2 -> unitDraw r3 -> unitDraw r4 -> unitDraw r5 ->
  sparkInRange (sparkOf r1 r2 r3 r4 r5).
Proof.
  intros H1 H2 H3 H4 H5. unfold sparkInRange, sparkOf.
  cbn [angle distance size drift hueShift].
  split; [exact (turn_range r1 H1) |].
  split; [exact (distance_range r2 H2) |].
  split; [exact (size_range r3 H3) |].
  split; [exact (drift_range r4 H4) | exact (hueShift_range r5 H5)].
Qed.

End Ranges.

(** *** Positions in a mapped index range *)

Section IndexFacts.
Import Double Scene.
Local Open Scope nat_scope.

Lemma lookup_map_seq {A} (f : nat -> A) (n i : nat) :
  i < n -> map f (seq 0 n) !! i = Some (f i).
Proof.
  intros Hi. change (map f (seq 0 n)) with (f <$> seq 0 n).
  rewrite list_lookup_fmap, lookup_seq_lt by assumption. reflexivity.
Qed.

Lemma layerAt_calls hue (d : nat -> num) (i : nat) :
  layerAt hue d 1 i =
  layerOf hue i (d (2 + 8 * i)) (d (3 + 8 * i)) (d (4 + 8 * i)) (d (5 + 8 * i))
          (d (6 + 8 * i)) (d (7 + 8 * i)) (d (8 + 8 * i)) (d (9 + 8 * i)).
Proof.
  unfold layerAt.
  replace (1 + (8 * i + 1)) with (2 + 8 * i) by lia.
  replace (2 + (8 * i + 1)) with (3 + 8 * i) by lia.
  replace (3 + (8 * i + 1)) with (4 + 8 * i) by lia.
  replace (4 + (8 * i + 1)) with (5 + 8 * i) by lia.
  replace (5 + (8 * i + 1)) with (6 + 8 * i) by lia.
  replace (6 + (8 * i + 1)) with (7 + 8 * i) by lia.
  replace (7 + (8 * i + 1)) with (8 + 8 * i) by lia.
  replace (8 + (8 * i + 1)) with (9 + 8 * i) by lia.
  reflexivity.
Qed.

Lemma sparkAt_calls (d : nat -> num) (L j : nat) :
  sparkAt d (8 * L + 2) j =
  sparkOf (d (3 + 8 * L + 5 * j)) (d (4 + 8 * L + 5 * j)) (d (5 + 8 * L + 5 * j))
          (d (6 + 8 * L + 5 * j)) (d (7 + 8 * L + 5 * j)).
Proof.
  unfold sparkAt.
  replace (1 + (5 * j + (8 * L + 2))) with (3 + 8 * L + 5 * j) by lia.
  replace (2 + (5 * j + (8 * L + 2))) with (4 + 8 * L + 5 * j) by lia.
  replace (3 + (5 * j + (8 * L + 2))) with (5 + 8 * L + 5 * j) by lia.
  replace (4 + (5 * j + (8 * L + 2))) with (6 + 8 * L + 5 * j) by lia.
  replace (5 + (5 * j + (8 * L + 2))) with (7 + 8 * L + 5 * j) by lia.
  reflexivity.
Qed.

End IndexFacts.

(** *** [buildScene] *)

Section BuildSceneFacts.
Import Double Scene.

Variable toLowerCase : jsstring -> jsstring.

(** The seed of a prompt: the hash of its normalised text, 1 for hash 0. *)
Lemma hash_seed_range (input : jsstring) :
  let h := hashString input in
  orOne (ofZ h) = ofZ (if h =? 0 then 1 else h)
  /\ 0 <= (if h =? 0 then 1 else h) <= 2 ^ 32.
Proof.
  intros h. split; [apply orOne_ofZ|].
  pose proof (hashString_range input). fold h in H.
  destruct (Z.eqb_spec h 0); lia.
Qed.

(** A call of [buildScene] allocates one closure, runs the builder against
    its cell and leaves every other cell alone. *)
Lemma buildScene_run (prompt : jsstring) (σ : Store) :
  buildScene toLowerCase prompt σ =
  (fst (fromHash (hashString (seedText toLowerCase prompt))
                 (orOne (ofZ (hashString (seedText toLowerCase prompt))))),
   σ ++ [snd (fromHash (hashString (seedText toLowerCase prompt))
                       (orOne (ofZ (hashString (seedText toLowerCase prompt)))))]).
Proof.
  unfold buildScene.
  generalize (hashString (seedText toLowerCase prompt)). intros h.
  apply withRng_createRng.
Qed.

Lemma buildScene_fst (prompt : jsstring) (σ : Store) :
  fst (buildScene toLowerCase prompt σ) =
  fst (fromHash (hashString (seedText toLowerCase prompt))
                (orOne (ofZ (hashString (seedText toLowerCase prompt))))).
Proof. rewrite buildScene_run. apply fst_pair. Qed.

(** C1: [buildScene] is deterministic.  The blueprint does not depend on the
    store it is built in; in particular a second call, made in the store the
    first call left behind, returns the same blueprint: the same layers and
    sparks (so the same counts) and the same background, pulse and distort,
    every number being the same rational. *)
Theorem buildScene_deterministic (prompt : jsstring) (σ σ' : Store) :
  let first := buildScene toLowerCase prompt σ in
  let second := buildScene toLowerCase prompt (snd first) in
  fst first = fst second
  /\ fst first = fst (buildScene toLowerCase prompt σ')
  /\ length (layers (fst first)) = length (layers (fst second))
  /\ length (sparks (fst first)) = length (sparks (fst second))
  /\ layers (fst first) = layers (fst second)
  /\ sparks (fst first) = sparks (fst second)
  /\ background (fst first) = background (fst second)
  /\ pulse (fst first) = pulse (fst second)
  /\ distort (fst first) = distort (fst second).
Proof.
  intros first second.
  assert (E : fst first = fst second).
  { subst first second. rewrite !buildScene_fst. reflexivity. }
  assert (E' : fst first = fst (buildScene toLowerCase prompt σ')).
  { subst first. rewrite !buildScene_fst. reflexivity. }
  clearbody first second.
  rewrite <- E. repeat split; try reflexivity; assumption.
Qed.

Lemma prompt_draw_unit (input : jsstring) (n : nat) :
  (1 <= n)%nat -> unitDraw (draw (orOne (ofZ (hashString input))) n).
Proof.
  intros Hn. destruct (hash_seed_range input) as [E Hr].
  rewrite E. apply draw_unit; assumption.
Qed.

(** The blueprint of a prompt in closed form, with the facts about the
    draws that the theorems below use. *)
Lemma buildScene_draws (prompt : jsstring) (σ : Store) :
  exists (h : Z) (d : nat -> num) (L S : nat),
    h = hashString (seedText toLowerCase prompt)
    /\ d = draw (orOne (ofZ h))
    /\ (forall n, (1 <= n)%nat -> unitDraw (d n))
    /\ Z.of_nat L = layerCountOf (d 1%nat)
    /\ (5 <= L <= 9)%nat
    /\ Z.of_nat S = sparkCountOf (d (8 * L + 2)%nat)
    /\ (120 <= S <= 299)%nat
    /\ buildScene toLowerCase prompt σ =
       ({| layers := map (layerAt (hueOf h) d 1) (seq 0 L);
           sparks := map (sparkAt d (8 * L + 2)) (seq 0 S);
           background := backgroundOf h;
           pulse := pulseOf (d (5 * S + 8 * L + 3)%nat);
           distort := distortOf (d (5 * S + 8 * L + 4)%nat) |},
        σ ++ [stateAfter (orOne (ofZ h)) (5 * S + 8 * L + 4)]).
Proof.
  exists (hashString (seedText toLowerCase prompt)).
  generalize (prompt_draw_unit (seedText toLowerCase prompt)).
  rewrite buildScene_run.
  generalize (hashString (seedText toLowerCase prompt)). intros h Hd.
  rewrite (fromHash_draws (orOne (ofZ h)) h). cbv zeta.
  generalize dependent (draw (orOne (ofZ h))). intros d Hd.
  pose proof (layerCount_range (d 1%nat) (Hd 1%nat ltac:(lia))) as HL.
  exists d, (Z.to_nat (layerCountOf (d 1%nat))).
  generalize dependent (layerCountOf (d 1%nat)). intros zL HL.
  pose proof (sparkCount_range (d (8 * Z.to_nat zL + 2)%nat)
                (Hd (8 * Z.to_nat zL + 2)%nat ltac:(lia))) as HS.
  exists (Z.to_nat (sparkCountOf (d (8 * Z.to_nat zL + 2)%nat))).
  generalize dependent (sparkCountOf (d (8 * Z.to_nat zL + 2)%nat)). intros zS HS.
  rewrite fst_pair, snd_pair.
  split; [reflexivity|]. split; [reflexivity|]. split; [exact Hd|].
  split; [lia|]. split; [lia|]. split; [lia|]. split; [lia|].
  reflexivity.
Qed.

(** C4: the ranges of a blueprint.  Between 5 and 9 layers, between 120 and
    299 sparks, a background of two [hsl] stops, every layer and every spark
    with each field in its half-open range, [pulse] in [0.4, 0.8) and
    [distort] in [0.5, 1.4).  The fields are rationals within these bounds,
    hence finite. *)
Theorem buildScene_ranges (prompt : jsstring) (σ : Store) :
  let b := fst (buildScene toLowerCase prompt σ) in
  (5 <= length (layers b) <= 9)%nat
  /\ (120 <= length (sparks b) <= 299)%nat
  /\ (exists h0 h1, background b = (Hsl h0 68 12, Hsl h1 80 22))
  /\ Forall layerInRange (layers b)
  /\ Forall sparkInRange (sparks b)
  /\ (0.4 <= pulse b /\ pulse b < 0.8)%Q
  /\ (0.5 <= distort b /\ distort b < 1.4)%Q.
Proof.
  destruct (buildScene_draws prompt σ) as (h & d & L & S & _ & _ & Hd & _ & HL & _ & HS & E).
  rewrite E. clear E. intros b. subst b.
  rewrite fst_pair. cbn [layers sparks background pulse distort].
  rewrite !List.length_map, !List.length_seq.
  split; [lia|]. split; [lia|].
  split; [unfold backgroundOf; eauto|].
  split; [| split; [| split]].
  - apply List.Forall_map, List.Forall_forall. intros i _.
    unfold layerAt. apply layerOf_range; apply Hd; lia.
  - apply List.Forall_map, List.Forall_forall. intros j _.
    unfold sparkAt. apply sparkOf_range; apply Hd; lia.
  - apply pulse_range, Hd. lia.
  - apply distort_range, Hd. lia.
Qed.

(** Which call of the generator yields which field of the blueprint. *)
Lemma buildScene_calls (prompt : jsstring) (σ : Store) :
  let h := hashString (seedText toLowerCase prompt) in
  let d := draw (orOne (ofZ h)) in
  let b := fst (buildScene toLowerCase prompt σ) in
  let L := length (layers b) in
  let S := length (sparks b) in
  Z.of_nat L = layerCountOf (d 1%nat)
  /\ (forall i, (i < L)%nat ->
        layers b !! i =
        Some (layerOf (hueOf h) i
                (d (2 + 8 * i)%nat) (d (3 + 8 * i)%nat) (d (4 + 8 * i)%nat)
                (d (5 + 8 * i)%nat) (d (6 + 8 * i)%nat) (d (7 + 8 * i)%nat)
                (d (8 + 8 * i)%nat) (d (9 + 8 * i)%nat)))
  /\ Z.of_nat S = sparkCountOf (d (2 + 8 * L)%nat)
  /\ (forall j, (j < S)%nat ->
        sparks b !! j =
        Some (sparkOf (d (3 + 8 * L + 5 * j)%nat) (d (4 + 8 * L + 5 * j)%nat)
                (d (5 + 8 * L + 5 * j)%nat) (d (6 + 8 * L + 5 * j)%nat)
                (d (7 + 8 * L + 5 * j)%nat)))
  /\ pulse b = pulseOf (d (3 + 8 * L + 5 * S)%nat)
  /\ distort b = distortOf (d (4 + 8 * L + 5 * S)%nat)
  /\ snd (buildScene toLowerCase prompt σ) !! length σ =
     Some (stateAfter (orOne (ofZ h)) (4 + 8 * L + 5 * S)).
Proof.
  destruct (buildScene_draws prompt σ)
    as (h' & d' & L' & S' & Eh & Ed & _ & EL & _ & ES & _ & E).
  rewrite E. clear E. intros h d b L S.
  assert (Eh' : h' = h) by exact Eh. clear Eh.
  clearbody h. subst h'.
  assert (Ed' : d' = d) by exact Ed. clear Ed.
  clearbody d. subst d'.
  subst b L S. rewrite fst_pair, snd_pair.
  cbn [layers sparks background pulse distort].
  rewrite !List.length_map, !List.length_seq.
  split; [exact EL|].
  split.
  { intros i Hi. rewrite lookup_map_seq by assumption.
    rewrite layerAt_calls. reflexivity. }
  split; [rewrite (Nat.add_comm 2 (8 * L')); exact ES|].
  split.
  { intros j Hj. rewrite lookup_map_seq by assumption.
    rewrite sparkAt_calls. reflexivity. }
  split.
  { replace (3 + 8 * L' + 5 * S')%nat with (5 * S' + 8 * L' + 3)%nat by lia.
    reflexivity. }
  split.
  { replace (4 + 8 * L' + 5 * S')%nat with (5 * S' + 8 * L' + 4)%nat by lia.
    reflexivity. }
  rewrite lookup_app_r by lia. rewrite Nat.sub_diag.
  replace (4 + 8 * L' + 5 * S')%nat with (5 * S' + 8 * L' + 4)%nat by lia.
  reflexivity.
Qed.

(** C5 (amended): the order of the draws.  The first call of the generator
    gives the layer count; the layer at index [i] is built from the eight
    calls numbered [2 + 8i] to [9 + 8i] (hue, saturation, lightness and alpha
    of the colour, then radius, rotation, speed and variance), its hue
    shifted by [i * 0.03]; the spark count comes from call [2 + 8L], the
    spark at index [j] from the five calls after call [2 + 8L + 5j]; [pulse]
    and [distort] come from the last two calls, [3 + 8L + 5S] and
    [4 + 8L + 5S], after which the generator is not called again. *)
Theorem buildScene_draw_order (prompt : jsstring) (σ : Store) :
  let h := hashString (seedText toLowerCase prompt) in
  let d := draw (orOne (ofZ h)) in
  let b := fst (buildScene toLowerCase prompt σ) in
  let L := length (layers b) in
  let S := length (sparks b) in
  Z.of_nat L = layerCountOf (d 1%nat)
  /\ (forall i, (i < L)%nat ->
        layers b !! i =
        Some (layerOf (hueOf h) i
                (d (2 + 8 * i)%nat) (d (3 + 8 * i)%nat) (d (4 + 8 * i)%nat)
                (d (5 + 8 * i)%nat) (d (6 + 8 * i)%nat) (d (7 + 8 * i)%nat)
                (d (8 + 8 * i)%nat) (d (9 + 8 * i)%nat)))
  /\ Z.of_nat S = sparkCountOf (d (2 + 8 * L)%nat)
  /\ (forall j, (j < S)%nat ->
        sparks b !! j =
        Some (sparkOf (d (3 + 8 * L + 5 * j)%nat) (d (4 + 8 * L + 5 * j)%nat)
                (d (5 + 8 * L + 5 * j)%nat) (d (6 + 8 * L + 5 * j)%nat)
                (d (7 + 8 * L + 5 * j)%nat)))
  /\ pulse b = pulseOf (d (3 + 8 * L + 5 * S)%nat)
  /\ distort b = distortOf (d (4 + 8 * L + 5 * S)%nat)
  /\ snd (buildScene toLowerCase prompt σ) !! length σ =
     Some (stateAfter (orOne (ofZ h)) (4 + 8 * L + 5 * S)).
Proof. exact (buildScene_calls prompt σ). Qed.

End BuildSceneFacts.

(** *** The layer hue *)

Section LayerHueFacts.
Import Double Scene.
Local Open Scope Q_scope.

Lemma Qfloor_unit y : 0 <= y -> y < 1 -> Qfloor y = 0%Z.
Proof.
  intros H0 H1.
  pose proof (Qfloor_le y) as L. pose proof (Qlt_floor y) as U.
  rewrite inject_Z_plus in U. change (inject_Z 1) with 1 in U.
  assert (Ha : (Qfloor y < 1)%Z).
  { rewrite Zlt_Qlt. change (inject_Z 1) with 1. lra. }
  assert (Hb : (-1 < Qfloor y)%Z).
  { rewrite Zlt_Qlt. change (inject_Z (-1)) with (-1). lra. }
  lia.
Qed.

Lemma Qdiv_1_r x : x / 1 == x.
Proof. field. Qed.

(** [x % 1] of a number that is not negative lies in [0, 1). *)
Lemma rem_one_nonneg x : 0 <= x -> 0 <= rem x 1 /\ rem x 1 < 1.
Proof.
  intros Hx. unfold rem, trunc.
  assert (Hb : Qle_bool 0 (x / 1) = true).
  { apply Qle_bool_iff. rewrite Qdiv_1_r. assumption. }
  rewrite Hb, (Qfloor_comp _ _ (Qdiv_1_r x)), Qred_correct.
  pose proof (Qfloor_le x) as L. pose proof (Qlt_floor x) as U.
  rewrite inject_Z_plus in U. change (inject_Z 1) with 1 in U.
  split; lra.
Qed.

(** [x % 1] of a negative number above -1 is the number itself: the
    remainder keeps the sign of the dividend. *)
Lemma rem_one_negative x : -1 < x -> x < 0 -> rem x 1 == x.
Proof.
  intros H1 H0. unfold rem, trunc.
  destruct (Qle_bool 0 (x / 1)) eqn:Hb.
  - apply Qle_bool_iff in Hb. rewrite Qdiv_1_r in Hb. lra.
  - unfold Qceiling.
    assert (E : - (x / 1) == - x) by (rewrite Qdiv_1_r; reflexivity).
    rewrite (Qfloor_comp _ _ E), (Qfloor_unit (- x)) by lra.
    rewrite Qred_correct. change (inject_Z (- 0)) with 0. ring.
Qed.

Lemma add_mono x x' y y' : x <= x' -> y <= y' -> add x y <= add x' y'.
Proof. intros Hx Hy. apply rnd_mono. lra. Qed.

Lemma ofNat_ge_1 i : (1 <= i)%nat -> 1 <= ofNat i.
Proof.
  intros Hi. unfold ofNat. change 1 with (inject_Z 1). rewrite <- Zle_Qle. lia.
Qed.

(** The sum under the [% 1] stays above [-0.125 + 2^-34]: at index 0 when
    the draw is at least 2^-32, at any later index whatever the draw. *)
Lemma layerHue_sum_lower hue r (i : nat) :
  0 <= hue -> 0 <= r -> (i = 0%nat -> 1 # 4294967296 <= r) ->
  -2147483647 # 17179869184 <=
  add (sub (add hue (mul r (lit 0.25))) (lit 0.125)) (mul (ofNat i) (lit 0.03)).
Proof.
  intros Hhue Hr Hi.
  destruct i as [| i].
  - specialize (Hi eq_refl).
    apply Qle_trans with
      (add (sub (add 0 (mul (1 # 4294967296) (lit 0.25))) (lit 0.125))
           (mul (ofNat 0) (lit 0.03))).
    + apply Qle_bool_iff. vm_compute. reflexivity.
    + apply add_mono_l, sub_mono_l, add_mono; [assumption|].
      apply mul_mono_l; [| assumption]. apply Qle_bool_iff. vm_compute. reflexivity.
  - apply Qle_trans with
      (add (sub (add 0 (mul 0 (lit 0.25))) (lit 0.125)) (mul 1 (lit 0.03))).
    + apply Qle_bool_iff. vm_compute. reflexivity.
    + apply add_mono.
      * apply sub_mono_l, add_mono; [assumption|].
        apply mul_mono_l; [| assumption]. apply Qle_bool_iff. vm_compute. reflexivity.
      * apply mul_mono_l; [apply Qle_bool_iff; vm_compute; reflexivity|].
        apply ofNat_ge_1. lia.
Qed.

Lemma layerHue_bounds hue r (i : nat) :
  0 <= hue -> 0 <= r -> (i = 0%nat -> 1 # 4294967296 <= r) ->
  -0.125 < layerHue hue r i /\ layerHue hue r i < 1.
Proof.
  intros Hhue Hr Hi. unfold layerHue.
  pose proof (layerHue_sum_lower hue r i Hhue Hr Hi) as Hlow.
  set (t := add (sub (add hue (mul r (lit 0.25))) (lit 0.125))
                (mul (ofNat i) (lit 0.03))) in *.
  assert (Hc : -0.125 < -2147483647 # 17179869184) by reflexivity.
  assert (Hc' : -1 < -2147483647 # 17179869184) by reflexivity.
  destruct (Qlt_le_dec t 0) as [Hneg | Hpos].
  - rewrite (rem_one_negative t) by lra. split; lra.
  - destruct (rem_one_nonneg t Hpos). split; lra.
Qed.

Lemma hueOf_nonneg h : (0 <= h)%Z -> 0 <= hueOf h.
Proof.
  intros Hh. unfold hueOf, div. apply rnd_nonneg.
  apply Qle_shift_div_l; [reflexivity|].
  rewrite Qmult_0_l. unfold ofZ. change 0 with (inject_Z 0). rewrite <- Zle_Qle.
  apply Z.rem_nonneg; lia.
Qed.

(** The second value of a generator seeded in [0, 2^31] is never 0: the
    only state of [0, 2^32) that reaches 0 in two steps is 4150723358. *)
Lemma second_state_nonzero s :
  (0 <= s <= 2 ^ 31)%Z -> lcgSpec (lcgSpec s) <> 0%Z.
Proof.
  intros Hs H0. unfold lcgSpec in H0.
  apply Z.mod_divide in H0; [| lia]. destruct H0 as [k1 Hk1].
  pose proof (Z.div_mod (s * 1664525 + 1013904223) (2 ^ 32) ltac:(lia)) as Hq.
  set (u := ((s * 1664525 + 1013904223) mod 2 ^ 32)%Z) in *.
  set (q := ((s * 1664525 + 1013904223) / 2 ^ 32)%Z) in *.
  assert (Hdiv : (2 ^ 32 | (1664525 * 1664525) * (s - 4150723358))%Z).
  { exists (k1 + q * 1664525 - 2677593445088)%Z. lia. }
  apply Z.gauss in Hdiv; [| reflexivity].
  destruct Hdiv as [k Hk]. lia.
Qed.

Lemma second_draw_positive s :
  (0 <= s <= 2 ^ 31)%Z -> 1 # 4294967296 <= draw (inject_Z s) 2.
Proof.
  intros Hs.
  rewrite (draw_exact s 2) by lia. simpl Nat.iter.
  pose proof (second_state_nonzero s Hs) as Hne.
  pose proof (lcgSpec_range (lcgSpec s)) as [Hlo _].
  assert (H1 : (1 <= lcgSpec (lcgSpec s))%Z) by lia.
  rewrite Zle_Qle in H1. change (inject_Z 1) with 1 in H1.
  apply Qle_shift_div_l; [reflexivity|].
  assert (E : (1 # 4294967296) * 4294967296 == 1) by reflexivity.
  rewrite E. assumption.
Qed.

Lemma color_layerOf hue i r1 r2 r3 r4 r5 r6 r7 r8 :
  color (layerOf hue i r1 r2 r3 r4 r5 r6 r7 r8) =
  Hsla (ofZ (floor (mul (layerHue hue r1 i) 360)))
       (ofZ (60 + floor (mul r2 30)))
       (ofZ (45 + floor (mul r3 20)))
       (add (lit 0.35) (mul r4 (lit 0.35))).
Proof. reflexivity. Qed.

End LayerHueFacts.

(** *** Claims about the order of the draws and the layer hue *)

Lemma buildScene_draw_order_witness :
  let h := hashString (seedText asciiToLowerCase (str "sora")) in
  let d := draw (orOne (Double.ofZ h)) in
  let b := fst (buildScene asciiToLowerCase (str "sora") []) in
  layers b !! 0%nat =
  Some (Scene.layerOf (Scene.hueOf h) 0
          (d (2 + 8 * 0)%nat) (d (3 + 8 * 0)%nat) (d (4 + 8 * 0)%nat)
          (d (5 + 8 * 0)%nat) (d (6 + 8 * 0)%nat) (d (7 + 8 * 0)%nat)
          (d (8 + 8 * 0)%nat) (d (9 + 8 * 0)%nat)).
Proof.
  intros h d b.
  apply (proj1 (proj2 (buildScene_draw_order asciiToLowerCase (str "sora") []))).
  vm_compute. lia.
Defined.

(** Counterexample to C5 as stated: for the prompt ["sora"] (8 layers) the
    spark count is not what call [1 + 5L] or call [2 + 5L] of the generator
    gives, and after the layers the generator is not in the state that
    [1 + 5L] calls leave it in. *)
Lemma sparkCount_not_after_five_draws_per_layer :
  let h := hashString (seedText asciiToLowerCase (str "sora")) in
  let d := draw (orOne (Double.ofZ h)) in
  let b := fst (buildScene asciiToLowerCase (str "sora") []) in
  let L := length (layers b) in
  L = 8%nat
  /\ Z.of_nat (length (sparks b)) <> Scene.sparkCountOf (d (1 + 5 * L)%nat)
  /\ Z.of_nat (length (sparks b)) <> Scene.sparkCountOf (d (2 + 5 * L)%nat)
  /\ fst (mapM (Scene.buildLayer (Scene.hueOf h)) (seq 0 L)
               (stateAfter (orOne (Double.ofZ h)) 1))
     = layers b
  /\ snd (mapM (Scene.buildLayer (Scene.hueOf h)) (seq 0 L)
               (stateAfter (orOne (Double.ofZ h)) 1))
     <> stateAfter (orOne (Double.ofZ h)) (1 + 5 * L).
Proof.
  vm_compute. repeat split; try reflexivity; discriminate.
Qed.

(** C10: the hue [(hue + r*0.25 - 0.125 + index*0.03) % 1] of every layer
    of every blueprint lies strictly between -0.125 and 1, and the colour
    of the layer carries its floor times 360 as hue angle; it can be
    negative: for the prompt ["em"] the first layer has a negative hue and
    the hue angle -31. *)
Theorem layerHue_interval :
  (forall (toLowerCase : jsstring -> jsstring) (prompt : jsstring) (σ : Store)
          (i : nat),
     let h := hashString (seedText toLowerCase prompt) in
     let d := draw (orOne (Double.ofZ h)) in
     let b := fst (buildScene toLowerCase prompt σ) in
     let lh := Scene.layerHue (Scene.hueOf h) (d (2 + 8 * i)%nat) i in
     (i < length (layers b))%nat ->
     (-0.125 < lh /\ lh < 1)%Q
     /\ exists (l : LayerSpec) (s li a : Double.num),
          layers b !! i = Some l
          /\ color l = Hsla (Double.ofZ (Double.floor (Double.mul lh 360))) s li a)
  /\ (exists prompt : jsstring,
        let h := hashString (seedText asciiToLowerCase prompt) in
        let b := fst (buildScene asciiToLowerCase prompt []) in
        let lh := Scene.layerHue (Scene.hueOf h) (draw (orOne (Double.ofZ h)) 2) 0 in
        (lh < 0)%Q
        /\ exists (l : LayerSpec) (s li a : Double.num),
             layers b !! 0%nat = Some l /\ color l = Hsla (-31)%Q s li a).
Proof.
  split.
  - intros toLowerCase prompt σ i h d b lh Hi.
    pose proof (proj1 (proj2 (buildScene_calls toLowerCase prompt σ)) i Hi) as Hl.
    fold h in Hl. fold d in Hl. fold b in Hl.
    pose proof (hashString_range (seedText toLowerCase prompt)) as Hh. fold h in Hh.
    pose proof (hash_seed_range (seedText toLowerCase prompt)) as [Es Hs].
    cbv zeta in Es, Hs. fold h in Es, Hs.
    assert (Hd : forall n, (1 <= n)%nat -> unitDraw (d n)).
    { intros n Hn. subst d h. apply prompt_draw_unit, Hn. }
    split.
    + subst lh. apply layerHue_bounds.
      * apply hueOf_nonneg. lia.
      * apply Hd. lia.
      * intros ->. change (2 + 8 * 0)%nat with 2%nat.
        subst d. rewrite Es. apply second_draw_positive.
        destruct (Z.eqb_spec h 0); lia.
    + eexists _, _, _, _. split; [exact Hl|]. apply color_layerOf.
  - exists (str "em"). intros h b lh. split.
    + apply Qlt_alt. vm_compute. reflexivity.
    + eexists. eexists. eexists. eexists. split.
      * vm_compute. reflexivity.
      * reflexivity.
Qed.

Lemma layerHue_interval_witness :
  let h := hashString (seedText asciiToLowerCase (str "em")) in
  let lh := Scene.layerHue (Scene.hueOf h) (draw (orOne (Double.ofZ h)) (2 + 8 * 0)) 0 in
  (-0.125 < lh /\ lh < 1)%Q.
Proof.
  intros h lh.
  refine (proj1 (proj1 layerHue_interval asciiToLowerCase (str "em") [] 0%nat _)).
  vm_compute. lia.
Defined.

(** *** [trim] and the normalisation of the prompt *)

Lemma trimStart_blank (s : jsstring) :
  Forall (fun c => isWhiteSpace c = true) s -> trimStart s = [].
Proof.
  induction 1 as [| c s Hc _ IH]; simpl; [reflexivity|]. rewrite Hc. exact IH.
Qed.

Lemma trim_blank (s : jsstring) :
  Forall (fun c => isWhiteSpace c = true) s -> trim s = [].
Proof. intros H. unfold trim. rewrite (trimStart_blank s H). reflexivity. Qed.

Lemma trimStart_keep c (t : jsstring) :
  isWhiteSpace c = false -> trimStart (c :: t) = c :: t.
Proof. intros H. simpl. rewrite H. reflexivity. Qed.

Lemma trimStart_head (s : jsstring) :
  trimStart s = [] \/ exists c t, trimStart s = c :: t /\ isWhiteSpace c = false.
Proof.
  induction s as [| c s IH]; simpl; [left; reflexivity|].
  destruct (isWhiteSpace c) eqn:E; [exact IH|]. right. eauto.
Qed.

Lemma trimStart_idem (s : jsstring) : trimStart (trimStart s) = trimStart s.
Proof.
  destruct (trimStart_head s) as [-> | (c & t & -> & Hc)]; [reflexivity|].
  apply trimStart_keep, Hc.
Qed.

Lemma trimStart_snoc (l : jsstring) c :
  isWhiteSpace c = false -> exists u, trimStart (l ++ [c]) = u ++ [c].
Proof.
  intros Hc. induction l as [| a l IH]; simpl.
  - rewrite Hc. exists []. reflexivity.
  - destruct (isWhiteSpace a); [exact IH|]. exists (a :: l). reflexivity.
Qed.

Lemma trimEnd_idem (s : jsstring) : trimEnd (trimEnd s) = trimEnd s.
Proof. unfold trimEnd. rewrite rev_involutive, trimStart_idem. reflexivity. Qed.

(** Trimming the end of a string that starts with a character other than
    white space leaves its start alone. *)
Lemma trimStart_trimEnd (s : jsstring) :
  trimStart (trimEnd (trimStart s)) = trimEnd (trimStart s).
Proof.
  destruct (trimStart_head s) as [-> | (c & t & -> & Hc)]; [reflexivity|].
  unfold trimEnd. simpl rev.
  destruct (trimStart_snoc (rev t) c Hc) as [u ->].
  rewrite rev_unit. apply trimStart_keep, Hc.
Qed.

Lemma trim_idem (s : jsstring) : trim (trim s) = trim s.
Proof. unfold trim. rewrite trimStart_trimEnd. apply trimEnd_idem. Qed.

Lemma isWhiteSpace_letters c : 65 <= c <= 122 -> isWhiteSpace c = false.
Proof.
  intros H. unfold isWhiteSpace.
  rewrite (proj2 (Z.leb_gt c 13)) by lia.
  rewrite (proj2 (Z.leb_gt 8192 c)) by lia.
  rewrite !(proj2 (Z.eqb_neq c _)) by lia.
  rewrite andb_false_r. reflexivity.
Qed.

Lemma asciiToLowerCase_whiteSpace c :
  isWhiteSpace (if (65 <=? c) && (c <=? 90) then c + 32 else c) = isWhiteSpace c.
Proof.
  destruct (Z.leb_spec 65 c); destruct (Z.leb_spec c 90); simpl; try reflexivity.
  rewrite !isWhiteSpace_letters by lia. reflexivity.
Qed.

Lemma asciiToLowerCase_trimStart (s : jsstring) :
  trimStart (asciiToLowerCase s) = asciiToLowerCase (trimStart s).
Proof.
  induction s as [| c s IH]; [reflexivity|].
  unfold asciiToLowerCase in *. cbn [map trimStart].
  rewrite asciiToLowerCase_whiteSpace.
  destruct (isWhiteSpace c); [exact IH | reflexivity].
Qed.

Lemma asciiToLowerCase_trim (s : jsstring) :
  trim (asciiToLowerCase s) = asciiToLowerCase (trim s).
Proof.
  unfold trim, trimEnd. rewrite asciiToLowerCase_trimStart.
  unfold asciiToLowerCase at 1. rewrite <- map_rev.
  fold (asciiToLowerCase (rev (trimStart s))).
  rewrite asciiToLowerCase_trimStart.
  unfold asciiToLowerCase. rewrite map_rev. reflexivity.
Qed.

Lemma asciiToLowerCase_idem (s : jsstring) :
  asciiToLowerCase (asciiToLowerCase s) = asciiToLowerCase s.
Proof.
  unfold asciiToLowerCase. rewrite map_map. apply map_ext. intros c.
  destruct (Z.leb_spec 65 c); destruct (Z.leb_spec c 90); simpl; try reflexivity.
  - rewrite (proj2 (Z.leb_gt (c + 32) 90)) by lia. rewrite andb_false_r. reflexivity.
  - rewrite (proj2 (Z.leb_gt c 90)) by lia. rewrite andb_false_r. reflexivity.
  - rewrite (proj2 (Z.leb_gt 65 c)) by lia. reflexivity.
  - rewrite (proj2 (Z.leb_gt 65 c)) by lia. reflexivity.
Qed.

Lemma asciiToLowerCase_trimmed (s : jsstring) :
  trim s = s -> trim (asciiToLowerCase s) = asciiToLowerCase s.
Proof. intros H. rewrite asciiToLowerCase_trim, H. reflexivity. Qed.

Section Normalisation.

Variable toLowerCase : jsstring -> jsstring.

(** What the theorems below need of the host's case mapping: the empty
    string has no characters to map, lower-casing a lower-cased string
    changes nothing, and a string without white space at its ends keeps
    none when lower-cased. *)
Hypothesis toLowerCase_empty : toLowerCase [] = [].

Lemma seedText_blank (prompt : jsstring) :
  Forall (fun c => isWhiteSpace c = true) prompt ->
  seedText toLowerCase prompt = str "sora".
Proof.
  intros H. unfold seedText. rewrite (trim_blank prompt H), toLowerCase_empty.
  reflexivity.
Qed.

(** C6: the empty prompt, the prompt of three spaces and every prompt made
    of white space only give the blueprint of the default token. *)
Theorem buildScene_blank_prompt (σ : Store) :
  fst (buildScene toLowerCase [] σ) = defaultBlueprint
  /\ fst (buildScene toLowerCase (str "   ") σ) = defaultBlueprint
  /\ forall prompt : jsstring,
       Forall (fun c => isWhiteSpace c = true) prompt ->
       fst (buildScene toLowerCase prompt σ) = defaultBlueprint.
Proof.
  assert (H : forall prompt : jsstring,
             Forall (fun c => isWhiteSpace c = true) prompt ->
             fst (buildScene toLowerCase prompt σ) = defaultBlueprint).
  { intros prompt Hp. rewrite buildScene_fst, (seedText_blank prompt Hp).
    reflexivity. }
  split; [| split].
  - apply H. constructor.
  - apply H. repeat constructor.
  - exact H.
Qed.

Hypothesis toLowerCase_idem : forall s, toLowerCase (toLowerCase s) = toLowerCase s.
Hypothesis toLowerCase_trimmed :
  forall s, trim s = s -> trim (toLowerCase s) = toLowerCase s.

Lemma seedText_normalised (prompt : jsstring) :
  seedText toLowerCase (toLowerCase (trim prompt)) = seedText toLowerCase prompt.
Proof.
  unfold seedText.
  rewrite (toLowerCase_trimmed (trim prompt) (trim_idem prompt)), toLowerCase_idem.
  reflexivity.
Qed.

(** C7: a prompt and its normal form [prompt.trim().toLowerCase()] give the
    same blueprint (and leave the same store). *)
Theorem buildScene_normalised (prompt : jsstring) (σ : Store) :
  buildScene toLowerCase prompt σ = buildScene toLowerCase (toLowerCase (trim prompt)) σ
  /\ fst (buildScene toLowerCase prompt σ) =
     fst (buildScene toLowerCase (toLowerCase (trim prompt)) σ).
Proof.
  assert (E : buildScene toLowerCase prompt σ =
              buildScene toLowerCase (toLowerCase (trim prompt)) σ).
  { unfold buildScene. rewrite seedText_normalised. reflexivity. }
  split; [exact E | rewrite E; reflexivity].
Qed.

End Normalisation.

Lemma buildScene_blank_prompt_witness :
  fst (buildScene asciiToLowerCase [9; 32; 160; 8232; 65279] []) = defaultBlueprint.
Proof.
  refine (proj2 (proj2 (buildScene_blank_prompt asciiToLowerCase eq_refl [])) _ _).
  repeat constructor.
Defined.

Lemma buildScene_normalised_witness :
  fst (buildScene asciiToLowerCase (str "  Neon KOI ") []) =
  fst (buildScene asciiToLowerCase (asciiToLowerCase (trim (str "  Neon KOI "))) []).
Proof.
  exact (proj2 (buildScene_normalised asciiToLowerCase asciiToLowerCase_idem
                  asciiToLowerCase_trimmed (str "  Neon KOI ") [])).
Defined.

(** *** [drawScene] *)

Section DrawSceneFacts.
Import Double Canvas.
Local Open Scope Q_scope.

Variables Math_sin Math_cos : num -> num.

Lemma forEachFrom_nil {A} (f : A -> nat -> Ctx -> Ctx) (k : nat) (c : Ctx) :
  forEachFrom f [] k c = c.
Proof. reflexivity. Qed.

Lemma forEachFrom_cons {A} (f : A -> nat -> Ctx -> Ctx) (a : A) (l : list A)
    (k : nat) (c : Ctx) :
  forEachFrom f (a :: l) k c = forEachFrom f l (S k) (f a k c).
Proof. reflexivity. Qed.

(** The vertex loop only extends the current path. *)
Lemma fold_layerVertex cx cy radius layerTime layer blueprintDistort index
    (l : list nat) (c : Ctx) :
  let c' :=
    fold_left (layerVertex Math_sin Math_cos cx cy radius layerTime layer
                 blueprintDistort index) l c in
  path c' =
    path c ++ map (layerVertexCmd Math_sin Math_cos cx cy radius layerTime layer
                     blueprintDistort index) l
  /\ surface c' = surface c
  /\ globalCompositeOperation c' = globalCompositeOperation c
  /\ canvasWidth c' = canvasWidth c /\ canvasHeight c' = canvasHeight c.
Proof.
  revert c. induction l as [| i l IH]; intros c; cbn [fold_left map].
  - rewrite app_nil_r. repeat split.
  - destruct (IH (layerVertex Math_sin Math_cos cx cy radius layerTime layer
                    blueprintDistort index c i)) as (Hp & Hs & Hg & Hw & Hh).
    cbv zeta. rewrite Hp, Hs, Hg, Hw, Hh.
    unfold layerVertex, addToPath, setPath.
    cbn [path surface globalCompositeOperation canvasWidth canvasHeight].
    rewrite <- app_assoc. repeat split.
Qed.

(** A layer callback paints one fill: the outline of the layer in its
    colour, blurred, under the composite operation it finds. *)
Lemma drawLayer_effect time cx cy maxDim pulse blueprintDistort layer index (c : Ctx) :
  let c' :=
    drawLayer Math_sin Math_cos time cx cy maxDim pulse blueprintDistort layer index c in
  surface c' =
    surface c ++ [layerFill Math_sin Math_cos time cx cy maxDim pulse blueprintDistort
                    (globalCompositeOperation c) index layer]
  /\ globalCompositeOperation c' = globalCompositeOperation c
  /\ canvasWidth c' = canvasWidth c /\ canvasHeight c' = canvasHeight c.
Proof.
  unfold drawLayer. cbv zeta.
  set (layerTime := add (mul time (speed layer)) (rotation layer)).
  set (r := div (mul (mul maxDim (radius layer)) pulse) 2).
  destruct (fold_layerVertex cx cy r layerTime layer blueprintDistort index
              (seq 0 361) (beginPath c)) as (Hp & Hs & Hg & Hw & Hh).
  cbv zeta in Hp, Hs, Hg, Hw, Hh.
  set (c1 := fold_left _ (seq 0 361) (beginPath c)) in *.
  unfold fill, paint, setFilter, setFillStyle, closePath, addToPath, setPath.
  cbn [path surface globalCompositeOperation canvasWidth canvasHeight fillStyle filter].
  rewrite Hp, Hs, Hg, Hw, Hh.
  unfold beginPath, setPath.
  cbn [path surface globalCompositeOperation canvasWidth canvasHeight fillStyle filter].
  repeat split.
Qed.

Lemma forEachFrom_layers time cx cy maxDim pulse blueprintDistort
    (l : list LayerSpec) (k : nat) (c : Ctx) :
  let c' :=
    forEachFrom (drawLayer Math_sin Math_cos time cx cy maxDim pulse blueprintDistort)
                l k c in
  surface c' =
    surface c ++ imap (fun i layer =>
                         layerFill Math_sin Math_cos time cx cy maxDim pulse
                           blueprintDistort (globalCompositeOperation c) (k + i) layer) l
  /\ globalCompositeOperation c' = globalCompositeOperation c
  /\ canvasWidth c' = canvasWidth c /\ canvasHeight c' = canvasHeight c.
Proof.
  revert k c. induction l as [| layer l IH]; intros k c; cbn [forEachFrom].
  - cbn [imap]. rewrite app_nil_r. repeat split.
  - destruct (drawLayer_effect time cx cy maxDim pulse blueprintDistort layer k c)
      as (Hs & Hg & Hw & Hh).
    cbv zeta in Hs, Hg, Hw, Hh.
    destruct (IH (S k) (drawLayer Math_sin Math_cos time cx cy maxDim pulse
                          blueprintDistort layer k c)) as (Hs' & Hg' & Hw' & Hh').
    cbv zeta in Hs', Hg', Hw', Hh'. cbv zeta.
    rewrite Hs', Hg', Hw', Hh', Hs, Hg, Hw, Hh.
    rewrite imap_cons, <- app_assoc, Nat.add_0_r. cbn [app].
    split; [| repeat split].
    match goal with
    | |- _ ++ _ :: ?a = _ ++ _ :: ?b => assert (E : a = b)
    end.
    { apply imap_ext. intros i x _. unfold compose.
      replace (S k + i)%nat with (k + S i)%nat by lia. reflexivity. }
    rewrite E. reflexivity.
Qed.

(** A spark callback paints one fill: the disc of the spark with its radial
    gradient, under the composite operation and filter it finds. *)
Lemma drawSpark_effect time cx cy maxDim spark idx (c : Ctx) :
  filter c = FilterNone ->
  let c' := drawSpark Math_sin Math_cos time cx cy maxDim spark idx c in
  surface c' =
    surface c ++ [sparkFill Math_sin Math_cos time cx cy maxDim
                    (globalCompositeOperation c) idx spark]
  /\ globalCompositeOperation c' = globalCompositeOperation c
  /\ filter c' = FilterNone
  /\ canvasWidth c' = canvasWidth c /\ canvasHeight c' = canvasHeight c.
Proof.
  intros Hf. unfold drawSpark, sparkFill. cbv zeta.
  destruct (sparkCentre Math_sin Math_cos time cx cy maxDim spark idx) as [x y].
  unfold fill, paint, arc, addToPath, beginPath, setPath, setFillStyle.
  cbn [path surface globalCompositeOperation canvasWidth canvasHeight fillStyle filter].
  rewrite Hf. cbn [app]. repeat split.
Qed.

Lemma forEachFrom_sparks time cx cy maxDim (l : list SparkSpec) (k : nat) (c : Ctx) :
  filter c = FilterNone ->
  let c' := forEachFrom (drawSpark Math_sin Math_cos time cx cy maxDim) l k c in
  surface c' =
    surface c ++ imap (fun i spark =>
                         sparkFill Math_sin Math_cos time cx cy maxDim
                           (globalCompositeOperation c) (k + i) spark) l
  /\ globalCompositeOperation c' = globalCompositeOperation c
  /\ filter c' = FilterNone
  /\ canvasWidth c' = canvasWidth c /\ canvasHeight c' = canvasHeight c.
Proof.
  revert k c. induction l as [| spark l IH]; intros k c Hf.
  - rewrite forEachFrom_nil. cbv zeta. cbn [imap]. rewrite app_nil_r.
    repeat split. exact Hf.
  - rewrite forEachFrom_cons.
    pose proof (drawSpark_effect time cx cy maxDim spark k c Hf) as HH.
    cbv zeta in HH. destruct HH as (Hs & Hg & Hf1 & Hw & Hh).
    pose proof (IH (S k) (drawSpark Math_sin Math_cos time cx cy maxDim spark k c) Hf1)
      as HI.
    cbv zeta in HI. destruct HI as (Hs' & Hg' & Hf' & Hw' & Hh').
    cbv zeta.
    rewrite Hs', Hg', Hf', Hw', Hh', Hs, Hg, Hw, Hh.
    rewrite imap_cons, <- app_assoc, Nat.add_0_r. cbn [app].
    split; [| repeat split].
    match goal with
    | |- _ ++ _ :: ?a = _ ++ _ :: ?b => assert (E : a = b)
    end.
    { apply imap_ext. intros i x _. unfold compose.
      replace (S k + i)%nat with (k + S i)%nat by lia. reflexivity. }
    rewrite E. reflexivity.
Qed.

(** Everything a call of [drawScene] paints, in order, and the state it
    leaves the context in. *)
Lemma drawScene_effect (ctx : Ctx) (time : num) (blueprint : SceneBlueprint) :
  let width := canvasWidth ctx in
  let height := canvasHeight ctx in
  let cx := div width 2 in
  let cy := div height 2 in
  let maxDim := max width height in
  let pulse := add 1 (mul (Math_sin (mul time (pulse blueprint))) (lit 0.05)) in
  let c' := drawScene Math_sin Math_cos ctx time blueprint in
  surface c' =
    surface ctx
    ++ [ClearRect 0 0 width height;
        FillRect 0 0 width height
          (LinearGradient 0 0 width height
             [(0, fst (background blueprint)); (1, snd (background blueprint))])
          (filter ctx) (globalCompositeOperation ctx)]
    ++ imap (fun i layer =>
               layerFill Math_sin Math_cos time cx cy maxDim pulse (distort blueprint)
                 (globalCompositeOperation ctx) i layer) (layers blueprint)
    ++ imap (fun i spark =>
               sparkFill Math_sin Math_cos time cx cy maxDim "lighter"%string i spark)
            (sparks blueprint)
  /\ globalCompositeOperation c' = "source-over"%string
  /\ filter c' = FilterNone
  /\ canvasWidth c' = width /\ canvasHeight c' = height.
Proof.
  intros width height cx cy maxDim pulse c'. subst c'. unfold drawScene, forEach.
  cbv zeta. fold width height. fold cx cy maxDim. fold pulse.
  set (c1 := fillRect 0 0 width height _).
  pose proof (forEachFrom_layers time cx cy maxDim pulse (distort blueprint)
                (layers blueprint) 0 c1) as HL.
  cbv zeta in HL. destruct HL as (Hs & Hg & Hw & Hh).
  set (c2 := forEachFrom _ (layers blueprint) 0 c1) in *.
  set (c3 := setGlobalCompositeOperation "lighter"%string (setFilter FilterNone c2)).
  pose proof (forEachFrom_sparks time cx cy maxDim (sparks blueprint) 0 c3 eq_refl)
    as HI.
  cbv zeta in HI. destruct HI as (Hs' & Hg' & Hf' & Hw' & Hh').
  set (c4 := forEachFrom _ (sparks blueprint) 0 c3) in *.
  cbn [Nat.add] in Hs, Hs'.
  unfold setGlobalCompositeOperation.
  cbn [surface globalCompositeOperation filter canvasWidth canvasHeight].
  rewrite Hs', Hf', Hw', Hh'.
  subst c3. unfold setGlobalCompositeOperation, setFilter.
  cbn [surface globalCompositeOperation filter canvasWidth canvasHeight].
  rewrite Hs, Hw, Hh.
  subst c1. unfold fillRect, clearRect, paint, setFillStyle,
    createLinearGradient, addColorStop.
  cbn [surface globalCompositeOperation filter canvasWidth canvasHeight fillStyle app].
  rewrite <- !app_assoc. cbn [app].
  split; [reflexivity | repeat split].
Qed.

End DrawSceneFacts.

(** *** Claims about [drawScene] *)

Section DrawSceneClaims.
Import Double Canvas.
Local Open Scope Q_scope.

Variables Math_sin Math_cos : num -> num.

Lemma drawScene_spark_lookup (ctx : Ctx) (time : num) (blueprint : SceneBlueprint)
    (idx : nat) (spark : SparkSpec) :
  sparks blueprint !! idx = Some spark ->
  surface (drawScene Math_sin Math_cos ctx time blueprint)
    !! (length (surface ctx) + 2 + length (layers blueprint) + idx)%nat =
  Some (sparkFill Math_sin Math_cos time (div (canvasWidth ctx) 2)
          (div (canvasHeight ctx) 2) (max (canvasWidth ctx) (canvasHeight ctx))
          "lighter"%string idx spark).
Proof.
  intros Hspark.
  pose proof (drawScene_effect Math_sin Math_cos ctx time blueprint) as HE.
  cbv zeta in HE. destruct HE as (Hs & _). rewrite Hs. clear Hs.
  rewrite lookup_app_r by lia.
  rewrite lookup_app_r by (cbn [length]; lia).
  rewrite lookup_app_r by (rewrite length_imap; cbn [length]; lia).
  rewrite length_imap. cbn [length].
  replace (length (surface ctx) + 2 + length (layers blueprint) + idx
           - length (surface ctx) - 2 - length (layers blueprint))%nat
    with idx by lia.
  rewrite list_lookup_imap, Hspark. reflexivity.
Qed.

(** C8 (amended): the glow of every spark.  The spark at index [idx] is
    painted, additively and without filter, as a disc of radius
    [size * 12] around [centre + (cos angle, sin angle) * distance * maxDim
    * 0.45] (angle and distance wobbled as the callback computes them),
    filled with a radial gradient of that centre and radius whose inner stop
    is [hsla(hueShift + time*40, 80%, 70%, 0.85)], of alpha 0.85, and whose
    outer stop is fully transparent. *)
Theorem drawScene_spark_glow (ctx : Ctx) (time : num) (blueprint : SceneBlueprint)
    (idx : nat) (spark : SparkSpec) :
  sparks blueprint !! idx = Some spark ->
  let cx := div (canvasWidth ctx) 2 in
  let cy := div (canvasHeight ctx) 2 in
  let maxDim := max (canvasWidth ctx) (canvasHeight ctx) in
  let sparkTime := add (mul time (drift spark)) (mul (ofNat idx) (lit 0.01)) in
  let wobbledAngle :=
    add (angle spark) (mul (Math_sin (mul sparkTime (lit 0.5))) (lit 0.5)) in
  let wobbledDistance := add (distance spark) (mul (Math_sin sparkTime) (lit 0.02)) in
  let x :=
    add cx (mul (mul (mul (Math_cos wobbledAngle) wobbledDistance) maxDim) (lit 0.45)) in
  let y :=
    add cy (mul (mul (mul (Math_sin wobbledAngle) wobbledDistance) maxDim) (lit 0.45)) in
  surface (drawScene Math_sin Math_cos ctx time blueprint)
    !! (length (surface ctx) + 2 + length (layers blueprint) + idx)%nat =
  Some (Fill [Arc x y (mul (size spark) 12) 0 (mul PI 2)]
          (RadialGradient x y 0 x y (mul (size spark) 12)
             [(0, Hsla (add (hueShift spark) (mul time 40)) 80 70 (lit 0.85));
              (1, Hsla 0 0 100 0)])
          FilterNone "lighter"%string).
Proof.
  intros Hspark cx cy maxDim sparkTime wobbledAngle wobbledDistance x y.
  rewrite (drawScene_spark_lookup ctx time blueprint idx spark Hspark).
  reflexivity.
Qed.

(** C9: after [drawScene] the composite operation is ["source-over"] again
    (and the filter ["none"]), although every spark was painted under
    ["lighter"]; so what is drawn next on the same context is painted with
    normal blending. *)
Theorem drawScene_restores_blending (ctx : Ctx) (time : num)
    (blueprint : SceneBlueprint) :
  let c' := drawScene Math_sin Math_cos ctx time blueprint in
  globalCompositeOperation c' = "source-over"%string
  /\ filter c' = FilterNone
  /\ (forall (idx : nat) (spark : SparkSpec),
        sparks blueprint !! idx = Some spark ->
        exists path style,
          surface c' !! (length (surface ctx) + 2 + length (layers blueprint) + idx)%nat
          = Some (Fill path style FilterNone "lighter"%string))
  /\ (forall x y w h,
        surface (fillRect x y w h c') =
        surface c' ++ [FillRect x y w h (fillStyle c') FilterNone "source-over"%string])
  /\ surface (fill c') =
     surface c' ++ [Fill (path c') (fillStyle c') FilterNone "source-over"%string].
Proof.
  intros c'.
  pose proof (drawScene_effect Math_sin Math_cos ctx time blueprint) as HE.
  cbv zeta in HE. destruct HE as (_ & Hg & Hf & _). fold c' in Hg, Hf.
  split; [exact Hg|]. split; [exact Hf|]. split; [| split].
  - intros idx spark Hspark. subst c'.
    rewrite (drawScene_spark_lookup ctx time blueprint idx spark Hspark).
    unfold sparkFill. destruct (sparkCentre _ _ _ _ _ _ _ _) as [x y]. eauto.
  - intros x y w h. clearbody c'. unfold fillRect, paint. cbn [surface].
    rewrite Hg, Hf. reflexivity.
  - clearbody c'. unfold fill, paint. cbn [surface]. rewrite Hg, Hf. reflexivity.
Qed.

End DrawSceneClaims.

Local Open Scope Q_scope.

Lemma drawScene_spark_glow_witness :
  exists x y : Double.num,
    surface (drawScene (fun _ => 0%Q) (fun _ => 1%Q) (freshContext 768 768) 0
               sampleBlueprint) !! 3%nat =
    Some (Fill [Arc x y 24 0 (Double.mul Double.PI 2)]
            (RadialGradient x y 0 x y 24
               [(0%Q, Hsla (-20) 80 70 (Double.lit 0.85)); (1%Q, Hsla 0 0 100 0)])
            FilterNone "lighter"%string).
Proof.
  eexists. eexists.
  pose proof (drawScene_spark_glow (fun _ => 0%Q) (fun _ => 1%Q) (freshContext 768 768)
                0%Q sampleBlueprint 0%nat
                {| angle := 0; distance := Double.lit 0.5; size := 2;
                   drift := 1; hueShift := -20 |} eq_refl) as H.
  cbv zeta in H. vm_compute in H. vm_compute. exact H.
Defined.

Lemma drawScene_restores_blending_witness :
  exists path style,
    surface (drawScene (fun _ => 0%Q) (fun _ => 1%Q) (freshContext 768 768) 0
               sampleBlueprint) !! (0 + 2 + 1 + 0)%nat =
    Some (Fill path style FilterNone "lighter"%string).
Proof.
  exact (proj1 (proj2 (proj2 (drawScene_restores_blending (fun _ => 0%Q) (fun _ => 1%Q)
                                (freshContext 768 768) 0%Q sampleBlueprint)))
           0%nat
           {| angle := 0; distance := Double.lit 0.5; size := 2;
              drift := 1; hueShift := -20 |} eq_refl).
Defined.

(** Counterexample to C8 as stated: the inner stop of the glow is not fully
    opaque.  On a fresh 768 x 768 context, at time 0, the spark of the sample
    blueprint is painted with an inner stop of alpha 0.85, whatever the
    centre, radius and hue. *)
Lemma spark_glow_inner_stop_not_opaque :
  ~ (forall (Math_sin Math_cos : Double.num -> Double.num) (ctx : Ctx)
            (time : Double.num) (blueprint : SceneBlueprint) (idx : nat)
            (spark : SparkSpec),
       sparks blueprint !! idx = Some spark ->
       exists x y r h : Double.num,
         surface (drawScene Math_sin Math_cos ctx time blueprint)
           !! (length (surface ctx) + 2 + length (layers blueprint) + idx)%nat =
         Some (Fill [Arc x y r 0 (Double.mul Double.PI 2)]
                 (RadialGradient x y 0 x y r
                    [(0%Q, Hsla h 80 70 1); (1%Q, Hsla 0 0 100 0)])
                 FilterNone "lighter"%string)).
Proof.
  intros H.
  destruct (H (fun _ => 0%Q) (fun _ => 1%Q) (freshContext 768 768) 0%Q sampleBlueprint
              0%nat
              {| angle := 0; distance := Double.lit 0.5; size := 2;
                 drift := 1; hueShift := -20 |} eq_refl) as (x & y & r & h & E).
  vm_compute in E. discriminate E.
Qed.

Local Close Scope Q_scope.

(* ===================================================================== *)
(** * Further properties of the code *)
(* ===================================================================== *)

(** *** [hashString] and the generator *)

(** The hash of the empty string is 0; every hash lies in [0, 2^31]; and the
    bound 2^31, which is not a 32-bit signed integer, is reached: an
    accumulator of -2^31 has the absolute value 2^31. *)
Theorem hashString_bounds :
  hashString [] = 0
  /\ (forall input : jsstring, 0 <= hashString input <= 2 ^ 31)
  /\ hashString [2325; 9; 30; 12; 2] = 2 ^ 31.
Proof.
  split; [reflexivity|]. split; [exact hashString_range | reflexivity].
Qed.

(** The update of the generator is one-to-one on the states of [0, 2^32):
    two generators in different states are in different states after a
    call. *)
Theorem lcgNext_injective (s1 s2 : Z) :
  0 <= s1 < 2 ^ 32 -> 0 <= s2 < 2 ^ 32 ->
  snd (lcgNext (inject_Z s1)) = snd (lcgNext (inject_Z s2)) -> s1 = s2.
Proof.
  intros H1 H2 E.
  rewrite !lcgNext_exact in E by lia. cbn [snd] in E.
  injection E as E. unfold lcgSpec in E.
  pose proof (Z.div_mod (s1 * 1664525 + 1013904223) (2 ^ 32) ltac:(lia)) as D1.
  pose proof (Z.div_mod (s2 * 1664525 + 1013904223) (2 ^ 32) ltac:(lia)) as D2.
  rewrite E in D1.
  assert (Hdiv : (2 ^ 32 | 1664525 * (s1 - s2))).
  { exists ((s1 * 1664525 + 1013904223) / 2 ^ 32
            - (s2 * 1664525 + 1013904223) / 2 ^ 32). lia. }
  apply Z.gauss in Hdiv; [| reflexivity].
  destruct Hdiv as [k Hk]. lia.
Qed.

Lemma lcgNext_injective_witness : 7 = 7.
Proof.
  apply (lcgNext_injective 7 7); [lia | lia | reflexivity].
Defined.

(** A seed may be negative: for an integer state of [-2^32, 2^32] a call
    leaves the integer [(state*1664525 + 1013904223) rem 2^32], the
    remainder having the sign of the dividend, and returns it divided by
    2^32, a value strictly between -1 and 1 that is not negative when the
    state was not. *)
Theorem lcgNext_signed (s : Z) :
  - 2 ^ 32 <= s <= 2 ^ 32 ->
  let s' := Z.rem (s * 1664525 + 1013904223) (2 ^ 32) in
  snd (lcgNext (inject_Z s)) = inject_Z s'
  /\ (fst (lcgNext (inject_Z s)) == inject_Z s' / 4294967296)%Q
  /\ (-1 < fst (lcgNext (inject_Z s)))%Q /\ (fst (lcgNext (inject_Z s)) < 1)%Q
  /\ - 2 ^ 32 < s' < 2 ^ 32
  /\ (0 <= s -> (0 <= fst (lcgNext (inject_Z s)))%Q).
Proof.
  intros Hs s'.
  assert (Hs' : - 2 ^ 32 < s' < 2 ^ 32).
  { subst s'.
    pose proof (Z.rem_bound_abs (s * 1664525 + 1013904223) (2 ^ 32) ltac:(lia)). lia. }
  assert (E : lcgNext (inject_Z s) =
              (Double.div (inject_Z s') 4294967296, inject_Z s')).
  { unfold lcgNext.
    change 1664525%Q with (inject_Z 1664525).
    change 1013904223%Q with (inject_Z 1013904223).
    change 4294967296%Q with (inject_Z 4294967296).
    rewrite mul_ofZ by lia. rewrite add_ofZ by lia. rewrite rem_ofZ by lia.
    reflexivity. }
  rewrite E. cbn [fst snd].
  pose proof (div_pow32_exact s' ltac:(lia)) as Hd.
  assert (Hq1 : (inject_Z (- 2 ^ 32) < inject_Z s')%Q) by (rewrite <- Zlt_Qlt; lia).
  assert (Hq2 : (inject_Z s' < inject_Z (2 ^ 32))%Q) by (rewrite <- Zlt_Qlt; lia).
  change (inject_Z (- 2 ^ 32)) with (-4294967296)%Q in Hq1.
  change (inject_Z (2 ^ 32)) with 4294967296%Q in Hq2.
  assert (Hv : (inject_Z s' / 4294967296 == inject_Z s' * (1 # 4294967296))%Q) by (field).
  split; [reflexivity|]. split; [exact Hd|].
  rewrite Hd, Hv.
  split; [lra|]. split; [lra|]. split; [exact Hs'|].
  intros H0.
  assert (H0' : 0 <= s').
  { subst s'. apply Z.rem_nonneg; lia. }
  rewrite Zle_Qle in H0'. change (inject_Z 0) with 0%Q in H0'. lra.
Qed.

Lemma lcgNext_signed_witness :
  snd (lcgNext (inject_Z (-1000))) = inject_Z (-650620777).
Proof.
  exact (proj1 (lcgNext_signed (-1000) ltac:(lia))).
Defined.

(** *** [clamp] *)

(** With [min <= max], [clamp] returns a value of [min, max], and returns
    its argument when that lies in the interval. *)
Theorem clamp_range (value min max : Double.num) :
  (min <= max)%Q ->
  (min <= clamp value min max)%Q /\ (clamp value min max <= max)%Q
  /\ ((min <= value)%Q -> (value <= max)%Q -> (clamp value min max == value)%Q).
Proof.
  intros Hmm. unfold clamp, Double.min, Double.max.
  destruct (Qle_bool value min) eqn:E1.
  - apply Qle_bool_iff in E1.
    assert (E2 : Qle_bool min max = true) by (apply Qle_bool_iff; assumption).
    rewrite E2. repeat split; try lra.
  - assert (Hv : (min < value)%Q).
    { apply Qnot_le_lt. intros H. apply Qle_bool_iff in H. congruence. }
    destruct (Qle_bool value max) eqn:E2.
    + apply Qle_bool_iff in E2. repeat split; lra.
    + assert (Hv' : (max < value)%Q).
      { apply Qnot_le_lt. intros H. apply Qle_bool_iff in H. congruence. }
      repeat split; lra.
Qed.

Lemma clamp_range_witness : (0 <= clamp (-248 # 360) 0 1)%Q.
Proof.
  exact (proj1 (clamp_range (-248 # 360)%Q 0%Q 1%Q ltac:(discriminate))).
Defined.

(** *** The store *)

(** [buildScene] creates exactly one generator and touches no other: the
    store grows by one cell and every cell that was there keeps its
    content. *)
Theorem buildScene_frame (toLowerCase : jsstring -> jsstring) (prompt : jsstring)
    (σ : Store) :
  length (snd (buildScene toLowerCase prompt σ)) = S (length σ)
  /\ forall (g : Rng) (s : Double.num),
       σ !! g = Some s -> snd (buildScene toLowerCase prompt σ) !! g = Some s.
Proof.
  rewrite buildScene_run, snd_pair. split.
  - rewrite length_app. cbn [length]. lia.
  - intros g s H. apply lookup_app_l_Some, H.
Qed.

Lemma buildScene_frame_witness :
  snd (buildScene asciiToLowerCase (str "koi") [5%Q; 7%Q]) !! 1%nat = Some 7%Q.
Proof.
  exact (proj2 (buildScene_frame asciiToLowerCase (str "koi") [5%Q; 7%Q]) 1%nat 7%Q eq_refl).
Defined.

(** *** The colours of a blueprint *)

Section ColourFacts.
Import Double Scene.
Local Open Scope Q_scope.

(** A binary64 value below 1 is at most [1 - 2^-53]. *)
Lemma rnd_below_one y : rnd y < 1 -> rnd y <= 9007199254740991 # 9007199254740992.
Proof.
  intros Hx.
  destruct (Qlt_le_dec (1 # 2) y) as [Hy | Hy].
  - assert (Hy1 : y < 1).
    { apply Qnot_le_lt. intros H1. apply rnd_mono in H1.
      assert (E : rnd 1 == 1) by reflexivity. lra. }
    assert (Ex : rnd y = rnd_pos y).
    { unfold rnd. destruct (Qcompare_spec y 0); [lra | lra | reflexivity]. }
    rewrite Ex in *. rewrite rnd_pos_eq in *.
    assert (Ee : ex2 y = (-1)%Z).
    { apply ex2_unique.
      - assert (E : pow2 (-1) == 1 # 2) by reflexivity. lra.
      - assert (E : pow2 (-1 + 1) == 1) by reflexivity. lra. }
    unfold ulp_exp in *. rewrite Ee in *.
    change (Z.max (-1 - 52) (-1074)) with (-53)%Z in *.
    set (n := rne (y / pow2 (-53))) in *.
    assert (Ep : pow2 (-53) == 1 # 9007199254740992) by reflexivity.
    rewrite Ep in *.
    assert (Hn : (n < 9007199254740992)%Z).
    { rewrite Zlt_Qlt. change (inject_Z 9007199254740992) with 9007199254740992. lra. }
    assert (Hn' : (n <= 9007199254740991)%Z) by lia.
    rewrite Zle_Qle in Hn'. change (inject_Z 9007199254740991) with 9007199254740991 in Hn'.
    lra.
  - apply rnd_mono in Hy. assert (E : rnd (1 # 2) == 1 # 2) by reflexivity. lra.
Qed.

Lemma rem_one_unit x : 0 <= x -> x < 1 -> rem x 1 == x.
Proof.
  intros H0 H1. unfold rem, trunc.
  assert (Hb : Qle_bool 0 (x / 1) = true).
  { apply Qle_bool_iff. rewrite Qdiv_1_r. assumption. }
  rewrite Hb, (Qfloor_comp _ _ (Qdiv_1_r x)), (Qfloor_unit x H0 H1), Qred_correct.
  change (inject_Z 0) with 0. ring.
Qed.

Lemma rem_one_ge1 x : 1 <= x -> rem x 1 <= x - 1.
Proof.
  intros H1. unfold rem, trunc.
  assert (Hb : Qle_bool 0 (x / 1) = true).
  { apply Qle_bool_iff. rewrite Qdiv_1_r. lra. }
  rewrite Hb, (Qfloor_comp _ _ (Qdiv_1_r x)), Qred_correct.
  pose proof (Qfloor_resp_le 1 x H1) as Hf. change (Qfloor 1) with 1%Z in Hf.
  rewrite Zle_Qle in Hf. change (inject_Z 1) with 1 in Hf. lra.
Qed.

(** [(s % 1)] of a sum [s] that is a binary64 value of [0, 2 - 2^-53] is at
    most [1 - 2^-53]. *)
Lemma rem_one_sum_upper x y :
  0 <= add x y -> add x y <= 9007199254740991 # 4503599627370496 ->
  0 <= rem (add x y) 1 /\ rem (add x y) 1 <= 9007199254740991 # 9007199254740992.
Proof.
  intros H0 H2. split; [apply rem_one_nonneg, H0|].
  destruct (Qlt_le_dec (add x y) 1) as [H1 | H1].
  - rewrite (rem_one_unit _ H0 H1). apply rnd_below_one. exact H1.
  - pose proof (rem_one_ge1 _ H1). lra.
Qed.

Lemma hueOf_range h : (0 <= h)%Z -> 0 <= hueOf h /\ hueOf h <= 1.
Proof.
  intros Hh. split; [apply hueOf_nonneg, Hh|].
  unfold hueOf, div.
  apply Qle_trans with (rnd 1); [| apply Qle_bool_iff; reflexivity].
  apply rnd_mono. apply Qle_shift_div_r; [reflexivity|].
  pose proof (Z.rem_bound_pos h 360 Hh ltac:(lia)) as [_ Hk].
  assert (Hk' : (Z.rem h 360 <= 360)%Z) by lia.
  unfold ofZ. rewrite Zle_Qle in Hk'. change (inject_Z 360) with 360 in Hk'. lra.
Qed.

Lemma ofNat_le i n : (i <= n)%nat -> ofNat i <= ofNat n.
Proof. intros H. unfold ofNat. rewrite <- Zle_Qle. lia. Qed.

(** The hue of a layer, times 360 and floored, is an angle of [-45, 359]. *)
Lemma layerHue_angle hue r (i : nat) :
  0 <= hue -> hue <= 1 -> unitDraw r -> (i = 0%nat -> 1 # 4294967296 <= r) ->
  (i <= 8)%nat ->
  (-45 <= floor (mul (layerHue hue r i) 360) <= 359)%Z.
Proof.
  intros Hh0 Hh1 [Hr0 Hr1] Hi Hi8.
  pose proof (layerHue_sum_lower hue r i Hh0 Hr0 Hi) as Hlow.
  unfold layerHue.
  set (t1 := sub (add hue (mul r (lit 0.25))) (lit 0.125)) in *.
  set (t2 := mul (ofNat i) (lit 0.03)) in *.
  assert (Hup : add t1 t2 <= 9007199254740991 # 4503599627370496).
  { apply Qle_trans with
      (add (sub (add 1 (mul (4294967295 # 4294967296) (lit 0.25))) (lit 0.125))
           (mul (ofNat 8) (lit 0.03))).
    - subst t1 t2. apply add_mono.
      + apply sub_mono_l, add_mono; [assumption|].
        apply mul_mono_l; [apply Qle_bool_iff; vm_compute; reflexivity | assumption].
      + apply mul_mono_l; [apply Qle_bool_iff; vm_compute; reflexivity|].
        apply ofNat_le, Hi8.
    - apply Qle_bool_iff. vm_compute. reflexivity. }
  assert (Hrange : (-2147483647 # 17179869184) <= rem (add t1 t2) 1
                   /\ rem (add t1 t2) 1 <= 9007199254740991 # 9007199254740992).
  { destruct (Qlt_le_dec (add t1 t2) 0) as [Hneg | Hpos].
    - assert (Hc : -1 < -2147483647 # 17179869184) by reflexivity.
      rewrite (rem_one_negative (add t1 t2)) by lra.
      assert (Hc' : 0 <= 9007199254740991 # 9007199254740992) by discriminate.
      split; lra.
    - destruct (rem_one_sum_upper t1 t2 Hpos Hup) as [Ha Hb].
      assert (Hc : (-2147483647 # 17179869184) <= 0) by discriminate.
      split; lra. }
  destruct Hrange as [Ha Hb].
  pose proof (Qfloor_resp_le _ _ (mul_mono_l _ _ 360 ltac:(discriminate) Ha)) as F1.
  pose proof (Qfloor_resp_le _ _ (mul_mono_l _ _ 360 ltac:(discriminate) Hb)) as F2.
  replace (Qfloor (mul (-2147483647 # 17179869184) 360)) with (-45)%Z in F1
    by (vm_compute; reflexivity).
  replace (Qfloor (mul (9007199254740991 # 9007199254740992) 360)) with 359%Z in F2
    by (vm_compute; reflexivity).
  unfold floor. lia.
Qed.

Lemma alpha_range r : unitDraw r ->
  lit 0.35 <= add (lit 0.35) (mul r (lit 0.35))
  /\ add (lit 0.35) (mul r (lit 0.35)) < 0.7.
Proof.
  intros Hr.
  pose proof (affine_bounds (lit 0.35) (lit 0.35) r
                ltac:(apply Qle_bool_iff; vm_compute; reflexivity) Hr) as [H1 H2].
  split.
  - eapply Qle_trans; [| exact H1]. apply Qle_bool_iff. vm_compute. reflexivity.
  - eapply Qle_lt_trans; [exact H2|]. apply Qlt_alt. vm_compute. reflexivity.
Qed.

Lemma saturation_range r : unitDraw r -> (60 <= 60 + floor (mul r 30) <= 89)%Z.
Proof.
  intros Hr.
  pose proof (floor_mul_range r 30 ltac:(discriminate) Hr) as [H1 H2].
  change (floor (mul 0 30)) with 0%Z in H1.
  replace (floor (mul (4294967295 # 4294967296) 30)) with 29%Z in H2
    by (vm_compute; reflexivity).
  lia.
Qed.

Lemma lightness_range r : unitDraw r -> (45 <= 45 + floor (mul r 20) <= 64)%Z.
Proof.
  intros Hr.
  pose proof (floor_mul_range r 20 ltac:(discriminate) Hr) as [H1 H2].
  change (floor (mul 0 20)) with 0%Z in H1.
  replace (floor (mul (4294967295 # 4294967296) 20)) with 19%Z in H2
    by (vm_compute; reflexivity).
  lia.
Qed.

(** The first background stop: [floor(k/360 * 360)] is [k] or, where the
    quotient rounds down, [k - 1]; never negative. *)
Lemma stop0_checked :
  forallb (fun k => let a := floor (mul (div (ofZ k) 360) 360) in
                    ((a =? k) || (a =? k - 1))%Z && (0 <=? a)%Z && (a <=? 359)%Z)
          (map Z.of_nat (seq 0 360)) = true.
Proof. vm_compute. reflexivity. Qed.

Lemma stop0_angle k :
  (0 <= k < 360)%Z ->
  let a := floor (mul (div (ofZ k) 360) 360) in
  (a = k \/ a = k - 1)%Z /\ (0 <= a <= 359)%Z.
Proof.
  intros Hk a.
  pose proof stop0_checked as H. rewrite forallb_forall in H.
  specialize (H k). cbv beta zeta in H. fold a in H.
  assert (Hin : In k (map Z.of_nat (seq 0 360))).
  { apply in_map_iff. exists (Z.to_nat k). split; [lia|]. apply in_seq. lia. }
  specialize (H Hin).
  apply andb_prop in H. destruct H as [H H3].
  apply andb_prop in H. destruct H as [H1 H2].
  apply orb_prop in H1. split; [destruct H1; [left | right] |]; lia.
Qed.

Lemma clamp_unit v : 0 <= clamp v 0 1 /\ clamp v 0 1 <= 1.
Proof.
  unfold clamp, min, max.
  destruct (Qle_bool v 0) eqn:E1.
  - change (Qle_bool 0 1) with true. cbv iota. split; [apply Qle_refl | discriminate].
  - assert (Hv : 0 < v).
    { apply Qnot_le_lt. intros H. apply Qle_bool_iff in H. congruence. }
    destruct (Qle_bool v 1) eqn:E2.
    + apply Qle_bool_iff in E2. split; [apply Qlt_le_weak, Hv | exact E2].
    + split; [discriminate | apply Qle_refl].
Qed.

Lemma accentOf_range h : 0 <= accentOf h /\ accentOf h <= 1.
Proof. unfold accentOf. apply clamp_unit. Qed.

Lemma stop1_angle h :
  (0 <= h)%Z ->
  (0 <= floor (mul (rem (add (hueOf h) (div (accentOf h) 3)) 1) 360) <= 359)%Z.
Proof.
  intros Hh.
  destruct (hueOf_range h Hh) as [Hh0 Hh1].
  destruct (accentOf_range h) as [Ha0 Ha1].
  assert (Hd0 : 0 <= div (accentOf h) 3).
  { unfold div. apply rnd_nonneg. apply Qle_shift_div_l; [reflexivity | lra]. }
  assert (Hd1 : div (accentOf h) 3 <= div 1 3).
  { unfold div. apply rnd_mono. apply Qle_shift_div_r; [reflexivity|].
    assert (E : 1 / 3 * 3 == 1) by reflexivity. lra. }
  assert (H0 : 0 <= add (hueOf h) (div (accentOf h) 3)).
  { unfold add. apply rnd_nonneg. lra. }
  assert (H2 : add (hueOf h) (div (accentOf h) 3)
               <= 9007199254740991 # 4503599627370496).
  { apply Qle_trans with (add 1 (div 1 3)).
    - apply add_mono; assumption.
    - apply Qle_bool_iff. vm_compute. reflexivity. }
  destruct (rem_one_sum_upper _ _ H0 H2) as [Ha Hb].
  pose proof (Qfloor_resp_le _ _ (mul_mono_l _ _ 360 ltac:(discriminate) Ha)) as F1.
  pose proof (Qfloor_resp_le _ _ (mul_mono_l _ _ 360 ltac:(discriminate) Hb)) as F2.
  change (Qfloor (mul 0 360)) with 0%Z in F1.
  replace (Qfloor (mul (9007199254740991 # 9007199254740992) 360)) with 359%Z in F2
    by (vm_compute; reflexivity).
  unfold floor. lia.
Qed.

End ColourFacts.

Section ColourTheorems.
Import Double Scene.
Variable toLowerCase : jsstring -> jsstring.
Local Open Scope Q_scope.

(** Every layer colour is [hsla(h, s%, l%, a)] with integer [h] in
    [-45, 359], [s] in [60, 89], [l] in [45, 64], and an alpha from the
    binary64 value of 0.35 up to, and not including, 0.7. *)
Theorem buildScene_layer_colours (prompt : jsstring) (σ : Store) :
  Forall (fun l => exists h s li a,
            color l = Hsla (ofZ h) (ofZ s) (ofZ li) a
            /\ (-45 <= h <= 359)%Z /\ (60 <= s <= 89)%Z /\ (45 <= li <= 64)%Z
            /\ lit 0.35 <= a /\ a < 0.7)
         (layers (fst (buildScene toLowerCase prompt σ))).
Proof.
  destruct (buildScene_draws toLowerCase prompt σ)
    as (h & d & L & S & Eh & Ed & Hd & _ & HL & _ & _ & E).
  rewrite E, fst_pair. clear E. cbn [layers].
  apply Forall_lookup. intros i l Hil.
  pose proof (lookup_lt_Some _ _ _ Hil) as Hi.
  rewrite length_map, length_seq in Hi.
  rewrite (lookup_map_seq _ _ _ Hi) in Hil.
  injection Hil as <-. unfold layerAt. cbv zeta. rewrite color_layerOf.
  pose proof (hashString_range (seedText toLowerCase prompt)) as Hh.
  rewrite <- Eh in Hh.
  pose proof (hash_seed_range (seedText toLowerCase prompt)) as [Es Hs].
  cbv zeta in Es, Hs. rewrite <- Eh in Es, Hs.
  destruct (hueOf_range h ltac:(lia)) as [Hu0 Hu1].
  eexists _, _, _, _. split; [reflexivity|].
  split; [| split; [| split]].
  - apply layerHue_angle; try assumption.
    + apply Hd. lia.
    + intros ->. change (1 + (8 * 0 + 1))%nat with 2%nat.
      rewrite Ed, Es. apply second_draw_positive.
      destruct (Z.eqb_spec h 0); lia.
    + lia.
  - apply saturation_range, Hd. lia.
  - apply lightness_range, Hd. lia.
  - apply alpha_range, Hd. lia.
Qed.

(** The background is [hsl(a0, 68%, 12%)] then [hsl(a1, 80%, 22%)] where,
    for [k] the hash of the prompt modulo 360, [a0] is [k] or [k - 1], and
    both angles are integers of [0, 359]. *)
Theorem buildScene_background (prompt : jsstring) (σ : Store) :
  let k := Z.rem (hashString (seedText toLowerCase prompt)) 360 in
  exists a0 a1,
    background (fst (buildScene toLowerCase prompt σ))
    = (Hsl (ofZ a0) 68 12, Hsl (ofZ a1) 80 22)
    /\ (a0 = k \/ a0 = k - 1)%Z /\ (0 <= a0 <= 359)%Z /\ (0 <= a1 <= 359)%Z.
Proof.
  intros k.
  destruct (buildScene_draws toLowerCase prompt σ)
    as (h & d & L & S & Eh & _ & _ & _ & _ & _ & _ & E).
  rewrite E, fst_pair. clear E. cbn [background].
  pose proof (hashString_range (seedText toLowerCase prompt)) as Hh.
  fold k. rewrite <- Eh in Hh.
  assert (Ek : k = Z.rem h 360) by (subst k h; reflexivity).
  clearbody k. subst k. clear Eh.
  unfold backgroundOf. cbv zeta.
  eexists _, _. split; [reflexivity|].
  pose proof (Z.rem_bound_pos h 360 ltac:(lia) ltac:(lia)) as Hk.
  pose proof (stop0_angle (Z.rem h 360) Hk) as H0. cbv zeta in H0.
  destruct H0 as [H0 H0'].
  split; [exact H0|]. split; [exact H0'|].
  apply stop1_angle. lia.
Qed.

End ColourTheorems.

(** The first background angle falls below the hash where the quotient
    rounds down: a hash of 13 gives the angle 12. *)
Lemma background_angle_rounds_down :
  fst (Scene.backgroundOf 13) = Hsl 12%Q 68%Q 12%Q.
Proof. vm_compute. reflexivity. Qed.

(** *** Frames *)

Section FrameFacts.
Import Double Canvas.
Local Open Scope Q_scope.

Variables Math_sin Math_cos : num -> num.

(** A frame painted after another frame, on the same context: it appends a
    clear, the background gradient with no filter and normal blending, the
    layers with normal blending and the sparks with additive blending,
    whatever state the context was in before the first frame. *)
Theorem drawScene_next_frame (ctx : Ctx) (time1 time2 : num)
    (blueprint1 blueprint2 : SceneBlueprint) :
  let width := canvasWidth ctx in
  let height := canvasHeight ctx in
  let cx := div width 2 in
  let cy := div height 2 in
  let maxDim := max width height in
  let pulse := add 1 (mul (Math_sin (mul time2 (pulse blueprint2))) (lit 0.05)) in
  let previous := drawScene Math_sin Math_cos ctx time1 blueprint1 in
  surface (drawScene Math_sin Math_cos previous time2 blueprint2) =
    surface previous
    ++ [ClearRect 0 0 width height;
        FillRect 0 0 width height
          (LinearGradient 0 0 width height
             [(0, fst (background blueprint2)); (1, snd (background blueprint2))])
          FilterNone "source-over"%string]
    ++ imap (fun i layer =>
               layerFill Math_sin Math_cos time2 cx cy maxDim pulse (distort blueprint2)
                 "source-over"%string i layer) (layers blueprint2)
    ++ imap (fun i spark =>
               sparkFill Math_sin Math_cos time2 cx cy maxDim "lighter"%string i spark)
            (sparks blueprint2).
Proof.
  intros width height cx cy maxDim pulse previous.
  pose proof (drawScene_effect Math_sin Math_cos ctx time1 blueprint1) as H1.
  cbv zeta in H1. fold previous in H1. fold width height in H1.
  destruct H1 as (_ & Hop & Hf & Hw & Hh).
  pose proof (drawScene_effect Math_sin Math_cos previous time2 blueprint2) as H2.
  cbv zeta in H2. destruct H2 as (Hs & _).
  rewrite Hs. clear Hs. clearbody previous.
  rewrite Hop, Hf, Hw, Hh. reflexivity.
Qed.

(** The layer at position [index] is painted, after the clear and the
    background, as one closed outline: a [moveTo], 360 [lineTo]s and a
    [closePath], filled with the colour of the layer under the blur
    [3 + index * 1.5] and the composite operation the context came with. *)
Theorem drawScene_layer_outline (ctx : Ctx) (time : num) (blueprint : SceneBlueprint)
    (index : nat) (layer : LayerSpec) :
  layers blueprint !! index = Some layer ->
  exists (x0 y0 : num) (edges : list PathCmd),
    surface (drawScene Math_sin Math_cos ctx time blueprint)
      !! (length (surface ctx) + 2 + index)%nat =
    Some (Fill (MoveTo x0 y0 :: edges ++ [ClosePath])
            (SolidColor (color layer))
            (Blur (add 3 (mul (ofNat index) (lit 1.5))))
            (globalCompositeOperation ctx))
    /\ length edges = 360%nat
    /\ Forall (fun e => exists x y, e = LineTo x y) edges.
Proof.
  intros Hlayer.
  pose proof (drawScene_effect Math_sin Math_cos ctx time blueprint) as HE.
  cbv zeta in HE. destruct HE as (Hs & _). rewrite Hs. clear Hs.
  set (cx := div (canvasWidth ctx) 2).
  set (cy := div (canvasHeight ctx) 2).
  set (maxDim := max (canvasWidth ctx) (canvasHeight ctx)).
  set (pl := add 1 (mul (Math_sin (mul time (pulse blueprint))) (lit 0.05))).
  pose proof (lookup_lt_Some _ _ _ Hlayer) as Hlt.
  rewrite lookup_app_r by lia.
  rewrite lookup_app_r by (cbn [length]; lia).
  cbn [length].
  replace (length (surface ctx) + 2 + index - length (surface ctx) - 2)%nat
    with index by lia.
  rewrite lookup_app_l by (rewrite length_imap; exact Hlt).
  rewrite list_lookup_imap, Hlayer. cbn [fmap option_fmap option_map].
  unfold layerFill, layerPath. cbv zeta.
  set (layerTime := add (mul time (speed layer)) (rotation layer)).
  set (r := div (mul (mul maxDim (radius layer)) pl) 2).
  set (f := layerVertexCmd Math_sin Math_cos cx cy r layerTime layer
              (distort blueprint) index).
  change (seq 0 361) with (0%nat :: seq 1 360). rewrite map_cons.
  assert (E0 : exists x y, f 0%nat = MoveTo x y).
  { subst f. unfold layerVertexCmd. cbv zeta. cbn [Nat.eqb]. eexists _, _. reflexivity. }
  destruct E0 as (x0 & y0 & E0). rewrite E0.
  exists x0, y0, (map f (seq 1 360)).
  split; [reflexivity|]. split.
  - rewrite length_map, length_seq. reflexivity.
  - apply Forall_forall. intros e He. apply list_elem_of_In in He.
    apply in_map_iff in He. destruct He as (i & <- & Hi).
    apply in_seq in Hi. subst f. unfold layerVertexCmd. cbv zeta.
    destruct i as [| i]; [lia|]. cbn [Nat.eqb]. eexists _, _. reflexivity.
Qed.

End FrameFacts.

Local Open Scope Q_scope.

Lemma drawScene_layer_outline_witness :
  exists (x0 y0 : Double.num) (edges : list PathCmd),
    surface (drawScene (fun _ => 0%Q) (fun _ => 1%Q) (freshContext 768 768) 0
               sampleBlueprint) !! (0 + 2 + 0)%nat =
    Some (Fill (MoveTo x0 y0 :: edges ++ [ClosePath])
            (SolidColor (Hsla 200 70 50 (Double.lit 0.5)))
            (Blur (Double.add 3 (Double.mul (Double.ofNat 0) (Double.lit 1.5))))
            "source-over"%string)
    /\ length edges = 360%nat
    /\ Forall (fun e => exists x y, e = LineTo x y) edges.
Proof.
  exact (drawScene_layer_outline (fun _ => 0%Q) (fun _ => 1%Q) (freshContext 768 768)
           0%Q sampleBlueprint 0%nat
           {| color := Hsla 200 70 50 (Double.lit 0.5);
              radius := Double.lit 0.5; rotation := 0;
              speed := Double.lit 0.5; variance := Double.lit 0.5 |} eq_refl).
Defined.

(** *** The [step] callback of [renderLoop] *)

Section RenderLoopFacts.
Import Double Canvas.
Local Open Scope Q_scope.

Variables Math_sin Math_cos : num -> num.

Lemma min_100_le x : min 100 x <= 100.
Proof.
  unfold min. destruct (Qle_bool 100 x) eqn:E; [apply Qle_refl|].
  apply Qlt_le_weak, Qnot_le_lt. intros H. apply Qle_bool_iff in H. congruence.
Qed.

(** One step of a recording of positive length.  The step paints a whole
    frame at the time [elapsed / 1000] (also the step that ends the loop):
    the clear, the background gradient, every layer and every spark, in
    this order.  The progress reported is at most 100, is not negative when
    the timestamp is not before the start, and is exactly 100 when the step
    does not ask for another frame, which it does exactly when the elapsed
    time is within the length. *)
Theorem renderStep_progress (ctx : Ctx) (blueprint : SceneBlueprint)
    (start lengthMs timestamp : num) :
  0 < lengthMs ->
  let r := renderStep Math_sin Math_cos ctx blueprint start lengthMs timestamp in
  let progress := snd (fst r) in
  let again := snd r in
  let time := div (sub timestamp start) 1000 in
  let width := canvasWidth ctx in
  let height := canvasHeight ctx in
  let cx := div width 2 in
  let cy := div height 2 in
  let maxDim := max width height in
  let beat := add 1 (mul (Math_sin (mul time (pulse blueprint))) (lit 0.05)) in
  surface (fst (fst r)) =
    surface ctx
    ++ [ClearRect 0 0 width height;
        FillRect 0 0 width height
          (LinearGradient 0 0 width height
             [(0, fst (background blueprint)); (1, snd (background blueprint))])
          (filter ctx) (globalCompositeOperation ctx)]
    ++ imap (fun i layer =>
               layerFill Math_sin Math_cos time cx cy maxDim beat (distort blueprint)
                 (globalCompositeOperation ctx) i layer) (layers blueprint)
    ++ imap (fun i spark =>
               sparkFill Math_sin Math_cos time cx cy maxDim "lighter"%string i spark)
            (sparks blueprint)
  /\ progress <= 100
  /\ (start <= timestamp -> 0 <= progress)
  /\ (again = true <-> sub timestamp start <= lengthMs)
  /\ (again = false -> progress = 100).
Proof.
  intros HL r progress again time width height cx cy maxDim beat.
  subst progress again r. unfold renderStep. cbv zeta.
  rewrite !fst_pair, !snd_pair.
  set (elapsed := sub timestamp start) in *.
  split; [| split; [apply min_100_le | split; [| split]]].
  - pose proof (drawScene_effect Math_sin Math_cos ctx time blueprint) as HE.
    cbv zeta in HE. destruct HE as (Hs & _). exact Hs.
  - intros Ht.
    assert (He : 0 <= elapsed).
    { subst elapsed. unfold sub. apply rnd_nonneg. lra. }
    assert (Hd : 0 <= div elapsed lengthMs).
    { unfold div. apply rnd_nonneg. apply Qle_shift_div_l; [assumption | lra]. }
    assert (Hm : 0 <= mul (div elapsed lengthMs) 100).
    { unfold mul. apply rnd_nonneg. nra. }
    unfold min. destruct (Qle_bool 100 _); [discriminate | exact Hm].
  - apply Qle_bool_iff.
  - intros Hg.
    assert (He : lengthMs < elapsed).
    { apply Qnot_le_lt. intros H. apply Qle_bool_iff in H. congruence. }
    assert (Hd : 1 <= div elapsed lengthMs).
    { unfold div. apply Qle_trans with (rnd 1); [apply Qle_bool_iff; reflexivity|].
      apply rnd_mono. apply Qle_shift_div_l; [assumption | lra]. }
    assert (Hm : 100 <= mul (div elapsed lengthMs) 100).
    { unfold mul. apply Qle_trans with (rnd 100); [apply Qle_bool_iff; reflexivity|].
      apply rnd_mono. lra. }
    unfold min. apply Qle_bool_iff in Hm. rewrite Hm. reflexivity.
Qed.

End RenderLoopFacts.

Lemma renderStep_progress_witness :
  let r := renderStep (fun _ => 0%Q) (fun _ => 1%Q) (freshContext 768 768)
             sampleBlueprint 0%Q 6000%Q 7000%Q in
  (0 < 6000)%Q /\ snd (fst r) = 100%Q /\ snd r = false.
Proof.
  pose proof (renderStep_progress (fun _ => 0%Q) (fun _ => 1%Q) (freshContext 768 768)
                sampleBlueprint 0%Q 6000%Q 7000%Q eq_refl) as H.
  cbv zeta in H. destruct H as (_ & _ & _ & _ & H).
  split; [reflexivity|]. split; [apply H|]; reflexivity.
Defined.

Local Close Scope Q_scope.

(** *** [preferredMimeType] *)

(** [preferredMimeType] returns [null] exactly when there is no window, no
    [MediaRecorder], or none of the three candidates is supported; a type it
    returns is a supported candidate, and every candidate listed before it
    is unsupported. *)
Theorem preferredMimeType_first_supported (env : MediaEnv) :
  (preferredMimeType env = None <->
     hasWindow env = false \/ hasMediaRecorder env = false
     \/ Forall (fun c => isTypeSupported env c = false) candidates)
  /\ (forall m, preferredMimeType env = Some m ->
        hasWindow env = true /\ hasMediaRecorder env = true
        /\ isTypeSupported env m = true
        /\ exists before after,
             candidates = before ++ m :: after
             /\ Forall (fun c => isTypeSupported env c = false) before).
Proof.
  unfold preferredMimeType.
  destruct (hasWindow env), (hasMediaRecorder env); cbn [negb orb].
  2-4: split; [split; auto | discriminate].
  assert (Hfind : forall l,
            (find (isTypeSupported env) l = None <->
               Forall (fun c => isTypeSupported env c = false) l)
            /\ (forall m, find (isTypeSupported env) l = Some m ->
                  isTypeSupported env m = true
                  /\ exists before after,
                       l = before ++ m :: after
                       /\ Forall (fun c => isTypeSupported env c = false) before)).
  { induction l as [| c l [IH1 IH2]]; cbn [find].
    - split; [split; [constructor | reflexivity] | discriminate].
    - destruct (isTypeSupported env c) eqn:Ec; split.
      + split; [discriminate|]. intros H. inversion H. congruence.
      + intros m [= <-]. split; [exact Ec|]. exists [], l. split; [reflexivity | constructor].
      + rewrite IH1. split; [intros H; constructor; assumption|].
        intros H. inversion H. assumption.
      + intros m Hm. destruct (IH2 m Hm) as (Hs & before & after & -> & Hb).
        split; [exact Hs|]. exists (c :: before), after.
        split; [reflexivity | constructor; assumption]. }
  destruct (Hfind candidates) as [H1 H2]. split.
  - rewrite H1. split; [auto|]. intros [H | [H | H]]; [discriminate | discriminate | exact H].
  - intros m Hm. destruct (H2 m Hm) as (Hs & Hrest). auto.
Qed.

(** *** [downloadName] *)

Section SlugFacts.

Lemma dash_not_slug : isSlugChar 45 = false.
Proof. reflexivity. Qed.

Lemma slug_not_dash c : isSlugChar c = true -> c <> 45%Z.
Proof. intros H ->. rewrite dash_not_slug in H. discriminate. Qed.

Lemma dashRunsFrom_chars (b : bool) (s : jsstring) :
  Forall (fun c => isSlugChar c = true \/ c = 45%Z) (dashRunsFrom b s).
Proof.
  revert b. induction s as [| c s IH]; intros b; cbn [dashRunsFrom].
  - constructor.
  - destruct (isSlugChar c) eqn:Ec.
    + constructor; [left; exact Ec | apply IH].
    + destruct b; [apply IH | constructor; [right; reflexivity | apply IH]].
Qed.

Lemma dashRunsFrom_true_head (s l : jsstring) : dashRunsFrom true s <> 45%Z :: l.
Proof.
  induction s as [| c s IH]; cbn [dashRunsFrom]; [discriminate|].
  destruct (isSlugChar c) eqn:Ec; [| exact IH].
  intros [= -> _]. rewrite dash_not_slug in Ec. discriminate.
Qed.

Lemma dashRunsFrom_no_double (b : bool) (s l1 l2 : jsstring) :
  dashRunsFrom b s <> l1 ++ 45%Z :: 45%Z :: l2.
Proof.
  revert b l1. induction s as [| c s IH]; intros b l1; cbn [dashRunsFrom].
  - destruct l1; discriminate.
  - destruct (isSlugChar c) eqn:Ec.
    + destruct l1 as [| x l1]; cbn [app].
      * intros [= -> _]. rewrite dash_not_slug in Ec. discriminate.
      * intros [= _ H]. exact (IH _ _ H).
    + destruct b; [apply IH|].
      destruct l1 as [| x l1]; cbn [app].
      * intros [= H]. exact (dashRunsFrom_true_head _ _ H).
      * intros [= _ H]. exact (IH _ _ H).
Qed.

Lemma dashRunsFrom_slug_prefix (w s : jsstring) :
  Forall (fun x => isSlugChar x = true) w ->
  dashRunsFrom false (w ++ s) = w ++ dashRunsFrom false s.
Proof.
  induction 1 as [| x w Hx _ IH]; [reflexivity|].
  cbn [app dashRunsFrom]. rewrite Hx, IH. reflexivity.
Qed.

Lemma dashRunsFrom_no_slug (s : jsstring) :
  Forall (fun c => isSlugChar c = false) s ->
  dashRunsFrom true s = []
  /\ (dashRunsFrom false s = [] \/ dashRunsFrom false s = [45%Z]).
Proof.
  induction 1 as [| c s Hc _ [IH1 IH2]]; cbn [dashRunsFrom].
  - split; [reflexivity | left; reflexivity].
  - rewrite Hc, IH1. split; [reflexivity | right; reflexivity].
Qed.

Lemma dashRunsFrom_keeps (b : bool) (s : jsstring) (c : Z) :
  In c s -> isSlugChar c = true -> In c (dashRunsFrom b s).
Proof.
  revert b. induction s as [| x s IH]; intros b; [intros []|].
  intros [-> | Hin] Hc; cbn [dashRunsFrom].
  - rewrite Hc. left. reflexivity.
  - destruct (isSlugChar x); [right; apply IH; assumption|].
    destruct b; [| right]; apply IH; assumption.
Qed.

Lemma stripStartDash_suffix (s : jsstring) : exists pre, s = pre ++ stripStartDash s.
Proof.
  destruct s as [| c s]; [exists []; reflexivity|]. cbn [stripStartDash].
  destruct (c =? 45)%Z; [exists [c] | exists []]; reflexivity.
Qed.

Lemma stripStartDash_keeps (s : jsstring) (c : Z) :
  In c s -> c <> 45%Z -> In c (stripStartDash s).
Proof.
  destruct s as [| x s]; [intros []|]. cbn [stripStartDash].
  destruct (Z.eqb_spec x 45); [| auto].
  intros [-> | H] Hc; [contradiction | exact H].
Qed.

Lemma stripEdgeDashes_infix (s : jsstring) :
  exists pre post, s = pre ++ stripEdgeDashes s ++ post.
Proof.
  unfold stripEdgeDashes.
  destruct (stripStartDash_suffix s) as [p1 E1].
  destruct (stripStartDash_suffix (rev (stripStartDash s))) as [p2 E2].
  exists p1, (rev p2). rewrite <- rev_app_distr, <- E2, rev_involutive. exact E1.
Qed.

Lemma stripEdgeDashes_keeps (s : jsstring) (c : Z) :
  In c s -> c <> 45%Z -> In c (stripEdgeDashes s).
Proof.
  intros Hin Hc. unfold stripEdgeDashes.
  apply in_rev. rewrite rev_involutive.
  apply stripStartDash_keeps; [| exact Hc].
  apply in_rev. rewrite rev_involutive.
  apply stripStartDash_keeps; assumption.
Qed.

Lemma stripStartDash_head (s : jsstring) :
  (forall l1 l2, s <> l1 ++ 45%Z :: 45%Z :: l2) ->
  head (stripStartDash s) <> Some 45%Z.
Proof.
  intros Hs. destruct s as [| c s]; [discriminate|]. cbn [stripStartDash].
  destruct (Z.eqb_spec c 45) as [-> | Hc].
  - destruct s as [| x s]; [discriminate|]. cbn [head].
    intros [= ->]. exact (Hs [] s eq_refl).
  - cbn [head]. congruence.
Qed.

Lemma stripEnd_head (t : jsstring) :
  head t <> Some 45%Z -> head (rev (stripStartDash (rev t))) <> Some 45%Z.
Proof.
  intros Ht. destruct (rev t) as [| c u] eqn:E.
  - discriminate.
  - apply (f_equal (@rev Z)) in E. rewrite rev_involutive in E.
    cbn [stripStartDash]. destruct (c =? 45)%Z.
    + cbn [rev] in E. destruct (rev u) as [| x r]; [discriminate|].
      subst t. exact Ht.
    + rewrite <- E. exact Ht.
Qed.

Lemma stripEnd_keeps (A R : jsstring) (d : Z) :
  d <> 45%Z -> exists R', rev (stripStartDash (rev (A ++ d :: R))) = A ++ d :: R'.
Proof.
  intros Hd. rewrite rev_app_distr. cbn [rev].
  destruct (rev R) as [| y Y] eqn:E; cbn [app stripStartDash].
  - destruct (Z.eqb_spec d 45); [contradiction|].
    exists []. cbn [rev]. rewrite rev_involutive. reflexivity.
  - destruct (y =? 45)%Z.
    + exists (rev Y). rewrite rev_app_distr, rev_involutive, rev_app_distr.
      reflexivity.
    + exists R. apply (f_equal (@rev Z)) in E. rewrite rev_involutive in E.
      change (y :: (Y ++ [d]) ++ rev A) with (((y :: Y) ++ [d]) ++ rev A).
      rewrite !rev_app_distr, rev_involutive, <- E. reflexivity.
Qed.

Variable toLowerCase : jsstring -> jsstring.

Lemma slugOf_infix (prompt : jsstring) :
  exists pre post, dashRuns (toLowerCase prompt) = pre ++ slugOf toLowerCase prompt ++ post.
Proof.
  unfold slugOf.
  destruct (stripEdgeDashes_infix (dashRuns (toLowerCase prompt))) as (pre & post & E).
  exists pre, (skipn 40 (stripEdgeDashes (dashRuns (toLowerCase prompt))) ++ post).
  rewrite (app_assoc (firstn 40 _) (skipn 40 _) post), firstn_skipn. exact E.
Qed.

(** The slug of a file name: at most 40 characters, each of [a-z], [0-9] or
    ["-"]; it never starts with ["-"] and never has two ["-"] in a row; it
    is empty exactly when the lower-cased prompt has no character of [a-z]
    or [0-9]. *)
Theorem slugOf_shape (prompt : jsstring) :
  let slug := slugOf toLowerCase prompt in
  (length slug <= 40)%nat
  /\ Forall (fun c => isSlugChar c = true \/ c = 45%Z) slug
  /\ head slug <> Some 45%Z
  /\ (forall l1 l2, slug <> l1 ++ 45%Z :: 45%Z :: l2)
  /\ (slug = [] <-> Forall (fun c => isSlugChar c = false) (toLowerCase prompt)).
Proof.
  intros slug.
  destruct (slugOf_infix prompt) as (pre & post & E). fold slug in E.
  assert (Hnd : forall l1 l2,
            dashRuns (toLowerCase prompt) <> l1 ++ 45%Z :: 45%Z :: l2).
  { intros l1 l2. apply dashRunsFrom_no_double. }
  split; [| split; [| split; [| split]]].
  - subst slug. unfold slugOf. apply firstn_le_length.
  - pose proof (dashRunsFrom_chars false (toLowerCase prompt)) as H.
    fold dashRuns in H. rewrite E in H.
    apply Forall_app in H. destruct H as [_ H].
    apply Forall_app in H. destruct H as [H _]. exact H.
  - subst slug. unfold slugOf.
    destruct (stripEdgeDashes (dashRuns (toLowerCase prompt))) as [| x r] eqn:Es;
      [discriminate|].
    change (head (firstn 40 (x :: r))) with (head (x :: r)). rewrite <- Es.
    unfold stripEdgeDashes. apply stripEnd_head, stripStartDash_head, Hnd.
  - intros l1 l2 H. apply (Hnd (pre ++ l1) (l2 ++ post)).
    rewrite E, H, <- !app_assoc. reflexivity.
  - split.
    + intros H0. apply Forall_forall. intros c Hc. apply list_elem_of_In in Hc.
      destruct (isSlugChar c) eqn:Ec; [| reflexivity]. exfalso.
      pose proof (stripEdgeDashes_keeps _ c
                    (dashRunsFrom_keeps false _ c Hc Ec) (slug_not_dash c Ec)) as Hin.
      fold dashRuns in Hin. subst slug. unfold slugOf in H0.
      destruct (stripEdgeDashes (dashRuns (toLowerCase prompt))); [exact Hin|].
      discriminate H0.
    + intros H. subst slug. unfold slugOf, dashRuns.
      destruct (dashRunsFrom_no_slug _ H) as [_ [-> | ->]]; reflexivity.
Qed.

(** Truncation comes after the trimming of dashes: when the 40th character
    of the lower-cased prompt starts a run that a letter or digit follows,
    the slug is the first 39 characters and a trailing ["-"]. *)
Theorem slugOf_trailing_dash (prompt w rest : jsstring) (c d : Z) :
  toLowerCase prompt = w ++ c :: d :: rest ->
  length w = 39%nat ->
  Forall (fun x => isSlugChar x = true) w ->
  isSlugChar c = false -> isSlugChar d = true ->
  slugOf toLowerCase prompt = w ++ [45%Z].
Proof.
  intros E Hw Hs Hc Hd. unfold slugOf, dashRuns. rewrite E.
  rewrite (dashRunsFrom_slug_prefix w _ Hs). cbn [dashRunsFrom]. rewrite Hc, Hd.
  unfold stripEdgeDashes.
  assert (E1 : stripStartDash (w ++ 45%Z :: d :: dashRunsFrom false rest)
               = w ++ 45%Z :: d :: dashRunsFrom false rest).
  { destruct w as [| x w]; [discriminate Hw|]. cbn [app stripStartDash].
    inversion Hs as [| ? ? Hx _]; subst.
    destruct (Z.eqb_spec x 45) as [-> | _]; [| reflexivity].
    rewrite dash_not_slug in Hx. discriminate. }
  rewrite E1.
  change (w ++ 45%Z :: d :: dashRunsFrom false rest)
    with (w ++ [45%Z] ++ d :: dashRunsFrom false rest).
  rewrite app_assoc.
  destruct (stripEnd_keeps (w ++ [45%Z]) (dashRunsFrom false rest) d
              (slug_not_dash d Hd)) as [R' ->].
  rewrite firstn_app, length_app, Hw. cbn [length Nat.add Nat.sub].
  rewrite firstn_all2 by (rewrite length_app, Hw; cbn [length]; lia).
  cbn [firstn]. rewrite app_nil_r. reflexivity.
Qed.

(** The file name offered for download: none while there is no video URL;
    otherwise ["sora2-procedural-"], a body of 1 to 40 characters and
    [".webm"], the body being the slug of the prompt, or ["sequence"] when
    the slug is empty. *)
Theorem downloadName_shape (prompt : jsstring) (videoUrl : option jsstring) :
  (downloadName toLowerCase prompt videoUrl = None <->
     videoUrl = None \/ videoUrl = Some [])
  /\ (forall name, downloadName toLowerCase prompt videoUrl = Some name ->
        exists body,
          name = str "sora2-procedural-" ++ body ++ str ".webm"
          /\ (1 <= length body <= 40)%nat
          /\ (slugOf toLowerCase prompt <> [] -> body = slugOf toLowerCase prompt)
          /\ (slugOf toLowerCase prompt = [] -> body = str "sequence")).
Proof.
  unfold downloadName.
  destruct videoUrl as [[| u url] |].
  - split; [split; auto | discriminate].
  - split; [split; [discriminate | intros [H | H]; discriminate]|].
    intros name [= <-]. cbv zeta.
    assert (Hlen : (length (slugOf toLowerCase prompt) <= 40)%nat)
      by (unfold slugOf; apply firstn_le_length).
    destruct (slugOf toLowerCase prompt) as [| x slug] eqn:Es.
    + exists (str "sequence"). split; [reflexivity|].
      split; [cbn; lia|]. split; [intros H; contradiction | reflexivity].
    + exists (x :: slug). split; [reflexivity|].
      split; [cbn [length] in *; lia|]. split; [reflexivity | discriminate].
  - split; [split; auto | discriminate].
Qed.

End SlugFacts.

Lemma slugOf_trailing_dash_witness :
  slugOf asciiToLowerCase (str "ABCDEFGHIJKLMNOPQRSTUVWXYZ0123456789abc def")
  = str "abcdefghijklmnopqrstuvwxyz0123456789abc" ++ [45%Z].
Proof.
  apply (slugOf_trailing_dash asciiToLowerCase
           (str "ABCDEFGHIJKLMNOPQRSTUVWXYZ0123456789abc def")
           (str "abcdefghijklmnopqrstuvwxyz0123456789abc")
           (str "ef") 32%Z 100%Z).
  - reflexivity.
  - reflexivity.
  - repeat constructor.
  - reflexivity.
  - reflexivity.
Defined.

Lemma downloadName_shape_witness :
  exists body,
    str "sora2-procedural-koi-fish.webm" = str "sora2-procedural-" ++ body ++ str ".webm"
    /\ (1 <= length body <= 40)%nat
    /\ (slugOf asciiToLowerCase (str "Koi fish!") <> [] ->
        body = slugOf asciiToLowerCase (str "Koi fish!"))
    /\ (slugOf asciiToLowerCase (str "Koi fish!") = [] -> body = str "sequence").
Proof.
  exact (proj2 (downloadName_shape asciiToLowerCase (str "Koi fish!")
                  (Some (str "blob:1")))
           (str "sora2-procedural-koi-fish.webm") eq_refl).
Defined.

Lemma preferredMimeType_first_supported_witness :
  let env := {| hasWindow := true; hasMediaRecorder := true;
                isTypeSupported := String.eqb "video/webm;codecs=vp8" |} in
  preferredMimeType env = Some "video/webm;codecs=vp8"%string
  /\ isTypeSupported env "video/webm;codecs=vp8" = true.
Proof.
  intros env. split; [reflexivity|].
  exact (proj1 (proj2 (proj2 (proj2 (preferredMimeType_first_supported env)
                                "video/webm;codecs=vp8"%string eq_refl)))).
Defined.

(** *** Progress over time *)

Section RenderLoopOrder.
Import Double Canvas.
Local Open Scope Q_scope.

Variables Math_sin Math_cos : num -> num.

(** For a recording of positive length, a later timestamp never reports a
    smaller progress, and a step that asks for another frame was preceded
    only by steps that did. *)
Theorem renderStep_monotone (ctx1 ctx2 : Ctx) (blueprint : SceneBlueprint)
    (start lengthMs t1 t2 : num) :
  0 < lengthMs -> t1 <= t2 ->
  let r1 := renderStep Math_sin Math_cos ctx1 blueprint start lengthMs t1 in
  let r2 := renderStep Math_sin Math_cos ctx2 blueprint start lengthMs t2 in
  snd (fst r1) <= snd (fst r2) /\ (snd r2 = true -> snd r1 = true).
Proof.
  intros HL Ht r1 r2. subst r1 r2. unfold renderStep. cbv zeta. cbn [fst snd].
  assert (He : sub t1 start <= sub t2 start) by (apply sub_mono_l, Ht).
  set (e1 := sub t1 start) in *. set (e2 := sub t2 start) in *.
  assert (Hd : div e1 lengthMs <= div e2 lengthMs).
  { unfold div. apply rnd_mono. unfold Qdiv.
    apply Qmult_le_compat_r; [exact He|]. apply Qlt_le_weak, Qinv_lt_0_compat, HL. }
  pose proof (mul_mono_l _ _ 100 ltac:(discriminate) Hd) as Hm.
  split.
  - unfold min.
    destruct (Qle_bool 100 (mul (div e1 lengthMs) 100)) eqn:E1;
      destruct (Qle_bool 100 (mul (div e2 lengthMs) 100)) eqn:E2.
    + apply Qle_refl.
    + apply Qle_bool_iff in E1.
      assert (H2 : 100 <= mul (div e2 lengthMs) 100) by lra.
      apply Qle_bool_iff in H2. congruence.
    + apply Qlt_le_weak, Qnot_le_lt. intros H. apply Qle_bool_iff in H. congruence.
    + exact Hm.
  - intros H2. apply Qle_bool_iff in H2. apply Qle_bool_iff. lra.
Qed.

End RenderLoopOrder.

Lemma renderStep_monotone_witness :
  (snd (fst (renderStep (fun _ => 0%Q) (fun _ => 1%Q) (freshContext 768%Q 768%Q)
               sampleBlueprint 0%Q 6000%Q 1500%Q))
   <= snd (fst (renderStep (fun _ => 0%Q) (fun _ => 1%Q) (freshContext 768%Q 768%Q)
                  sampleBlueprint 0%Q 6000%Q 3000%Q)))%Q.
Proof.
  exact (proj1 (renderStep_monotone (fun _ => 0%Q) (fun _ => 1%Q)
                  (freshContext 768%Q 768%Q) (freshContext 768%Q 768%Q)
                  sampleBlueprint 0%Q 6000%Q 1500%Q 3000%Q
                  ltac:(reflexivity) ltac:(discriminate))).
Defined.

(** *** A frame of a generated blueprint *)

Section GeneratedFrame.
Import Double Canvas.
Local Open Scope Q_scope.

Variables Math_sin Math_cos : num -> num.
Variable toLowerCase : jsstring -> jsstring.

(** Drawing the blueprint of any prompt issues, in this order: one clear
    of the canvas, one fill of the canvas with the background gradient, 5
    to 9 fills of a layer outline, each in a solid colour under a blur and
    the composite operation the context came with, and 120 to 299 fills of
    a spark, each unfiltered under ["lighter"]: between 127 and 310
    operations. *)
Theorem drawScene_buildScene_operations (prompt : jsstring) (σ : Store) (ctx : Ctx)
    (time : num) :
  let blueprint := fst (buildScene toLowerCase prompt σ) in
  let after := drawScene Math_sin Math_cos ctx time blueprint in
  let width := canvasWidth ctx in
  let height := canvasHeight ctx in
  exists layerFills sparkFills : list Painted,
    surface after =
      surface ctx
      ++ [ClearRect 0 0 width height;
          FillRect 0 0 width height
            (LinearGradient 0 0 width height
               [(0, fst (background blueprint)); (1, snd (background blueprint))])
            (filter ctx) (globalCompositeOperation ctx)]
      ++ layerFills ++ sparkFills
    /\ (5 <= length layerFills <= 9)%nat
    /\ (120 <= length sparkFills <= 299)%nat
    /\ Forall (fun p => exists outline c px,
                 p = Fill outline (SolidColor c) (Blur px)
                       (globalCompositeOperation ctx)) layerFills
    /\ Forall (fun p => exists disc stops,
                 p = Fill disc stops FilterNone "lighter"%string) sparkFills
    /\ (length (surface ctx) + 127 <= length (surface after)
        <= length (surface ctx) + 310)%nat.
Proof.
  intros blueprint after width height.
  assert (Hc : (5 <= length (layers blueprint) <= 9)%nat
               /\ (120 <= length (sparks blueprint) <= 299)%nat).
  { subst blueprint.
    destruct (buildScene_draws toLowerCase prompt σ)
      as (h & d & L & S & _ & _ & _ & _ & HL & _ & HS & E).
    rewrite E, fst_pair. cbn [layers sparks].
    rewrite !length_map, !length_seq. split; assumption. }
  clearbody blueprint.
  pose proof (drawScene_effect Math_sin Math_cos ctx time blueprint) as HE.
  cbv zeta in HE. destruct HE as (Hs & _). fold after in Hs. clearbody after.
  fold width height in Hs.
  eexists _, _. split; [exact Hs|]. rewrite Hs.
  rewrite !length_app, !length_imap. cbn [length].
  split; [lia|]. split; [lia|]. split; [| split; [| lia]].
  - apply Forall_lookup. intros i p Hp.
    rewrite list_lookup_imap in Hp.
    destruct (layers blueprint !! i) as [layer |]; [| discriminate Hp].
    injection Hp as <-. unfold layerFill. cbv zeta. eexists _, _, _. reflexivity.
  - apply Forall_lookup. intros i p Hp.
    rewrite list_lookup_imap in Hp.
    destruct (sparks blueprint !! i) as [spark |]; [| discriminate Hp].
    injection Hp as <-. unfold sparkFill.
    destruct (sparkCentre _ _ _ _ _ _ _ _) as [x y]. eexists _, _. reflexivity.
Qed.

End GeneratedFrame.
